(** * Automatic differentiation: the four strategies of [extra_autodiff.ipynb]

    A shallow embedding of the notebook's executable cells:
    - the finite-difference estimator [gradients] (cell 18),
    - the expression graph [Const]/[Var]/[Add]/[Mul] with [evaluate],
      [__str__] and the forward-mode [gradient] (cells 30 and 48),
    - the [DualNumber] class (cell 58),
    - the reverse-mode graph with [evaluate] and [backpropagate] (cell 72).

    Python numbers are modelled as they are: unbounded integers ([Z]) and
    IEEE-754 binary64 floats (primitive floats), with Python's int-to-float
    promotion and the exceptions the arithmetic can raise. *)

From Stdlib Require Import ZArith Floats Bool.
From stdpp Require Import gmap strings list pretty.

(** ** Exceptions and results *)

Inductive exn :=
  | OverflowError
  | ZeroDivisionError
  | TypeError
  | AttributeError
  | IndexError
  | NameError.

Inductive result (A : Type) :=
  | Ok (a : A)
  | Raise (e : exn).
Arguments Ok {A} a.
Arguments Raise {A} e.

#[export] Instance result_ret : MRet result := @Ok.
#[export] Instance result_bind : MBind result := fun A B f m =>
  match m with
  | Ok a => f a
  | Raise e => Raise e
  end.
#[export] Instance result_fmap : FMap result := fun A B f m =>
  match m with
  | Ok a => Ok (f a)
  | Raise e => Raise e
  end.

(** Stateful code: a computation reads and writes a state and may raise;
    what it wrote before raising stays written. *)
Definition M (St A : Type) : Type := St → result A * St.

#[export] Instance M_ret {St} : MRet (M St) := λ A a s, (Ok a, s).
#[export] Instance M_bind {St} : MBind (M St) := λ A B f m s,
  match m s with
  | (Ok a, s') => f a s'
  | (Raise e, s') => (Raise e, s')
  end.

Definition lift {St A} (r : result A) : M St A := λ s, (r, s).
Definition get {St} : M St St := λ s, (Ok s, s).
Definition modify {St} (f : St → St) : M St unit := λ s, (Ok tt, f s).

(** ** Python numbers *)

Inductive num :=
  | PInt (z : Z)
  | PFloat (f : float).

(** [float(z)]: the nearest binary64 value, ties to even; Python raises
    [OverflowError] when that value is not finite. *)
Definition int_to_float (z : Z) : result float :=
  let f := SF2Prim (binary_normalize prec emax z 0 false) in
  if PrimFloat.is_finite f then Ok f else Raise OverflowError.
Arguments int_to_float : simpl never.

Definition to_float (n : num) : result float :=
  match n with
  | PInt z => int_to_float z
  | PFloat f => Ok f
  end.

(** An arithmetic operator on two numbers: exact on two ints, otherwise both
    operands are promoted to float. *)
Definition arith (iop : Z → Z → Z) (fop : float → float → float)
    (a b : num) : result num :=
  match a, b with
  | PInt x, PInt y => Ok (PInt (iop x y))
  | _, _ => x ← to_float a; y ← to_float b; Ok (PFloat (fop x y))
  end.

Definition num_add : num → num → result num := arith Z.add PrimFloat.add.
Definition num_sub : num → num → result num := arith Z.sub PrimFloat.sub.
Definition num_mul : num → num → result num := arith Z.mul PrimFloat.mul.

Definition int_to_SF (z : Z) : spec_float :=
  match z with
  | Z0 => S754_zero false
  | Zpos p => S754_finite false p 0
  | Zneg p => S754_finite true p 0
  end.

(** [x / y]: true division. On two ints the exact quotient is rounded once. *)
Definition num_truediv (a b : num) : result num :=
  match a, b with
  | PInt x, PInt y =>
      if (y =? 0)%Z then Raise ZeroDivisionError
      else
        let q := SF2Prim (SF64div (int_to_SF x) (int_to_SF y)) in
        if PrimFloat.is_finite q then Ok (PFloat q) else Raise OverflowError
  | _, _ =>
      x ← to_float a; y ← to_float b;
      if PrimFloat.eqb y PrimFloat.zero then Raise ZeroDivisionError
      else Ok (PFloat (PrimFloat.div x y))
  end.

(** Truth value of a number ([if self.eps:]) and the test [n == 0]. *)
Definition num_is_zero (n : num) : bool :=
  match n with
  | PInt z => (z =? 0)%Z
  | PFloat f => PrimFloat.eqb f PrimFloat.zero
  end.

Definition num_bool (n : num) : bool := negb (num_is_zero n).

(** ** The values a graph computes with: numbers and dual numbers *)

Record DualNumber := new_DualNumber { value : num; eps : num }.

Inductive pyvalue :=
  | VNum (n : num)
  | VDual (d : DualNumber).

Coercion VNum : num >-> pyvalue.

(** ** class DualNumber (cell 58) *)

Module DualNumber.

(** [__init__(self, value=0.0, eps=0.0)] *)
Definition __init__ (value : num) (eps : option num) : DualNumber :=
  new_DualNumber value (default (PFloat PrimFloat.zero) eps).

(** [to_dual(cls, n)]: [n] itself when it has a [value] attribute,
    otherwise [cls(n)]. *)
Definition to_dual (n : pyvalue) : DualNumber :=
  match n with
  | VDual d => d
  | VNum k => __init__ k None
  end.

Definition __add__ (self : DualNumber) (b : pyvalue) : result DualNumber :=
  v ← num_add (value self) (value (to_dual b));
  e ← num_add (eps self) (eps (to_dual b));
  Ok (__init__ v (Some e)).

Definition __radd__ (self : DualNumber) (a : pyvalue) : result DualNumber :=
  __add__ (to_dual a) (VDual self).

Definition __mul__ (self : DualNumber) (b : pyvalue) : result DualNumber :=
  v ← num_mul (value self) (value (to_dual b));
  e1 ← num_mul (eps self) (value (to_dual b));
  e2 ← num_mul (value self) (eps (to_dual b));
  e ← num_add e1 e2;
  Ok (__init__ v (Some e)).

Definition __rmul__ (self : DualNumber) (a : pyvalue) : result DualNumber :=
  __mul__ (to_dual a) (VDual self).

End DualNumber.

(** ** The binary operators as Python dispatches them

    [a + b] calls [a.__add__(b)]; a number on the left of a [DualNumber]
    answers [NotImplemented], so Python calls [b.__radd__(a)]. *)

Definition py_add (a b : pyvalue) : result pyvalue :=
  match a, b with
  | VNum x, VNum y => VNum <$> num_add x y
  | VDual d, _ => VDual <$> DualNumber.__add__ d b
  | VNum _, VDual d => VDual <$> DualNumber.__radd__ d a
  end.

Definition py_mul (a b : pyvalue) : result pyvalue :=
  match a, b with
  | VNum x, VNum y => VNum <$> num_mul x y
  | VDual d, _ => VDual <$> DualNumber.__mul__ d b
  | VNum _, VDual d => VDual <$> DualNumber.__rmul__ d a
  end.

(** [DualNumber] defines neither [__sub__] nor [__truediv__]. *)
Definition py_sub (a b : pyvalue) : result pyvalue :=
  match a, b with
  | VNum x, VNum y => VNum <$> num_sub x y
  | _, _ => Raise TypeError
  end.

Definition py_truediv (a b : pyvalue) : result pyvalue :=
  match a, b with
  | VNum x, VNum y => VNum <$> num_truediv x y
  | _, _ => Raise TypeError
  end.

(** Python's builtin [str] on a value: the decimal digits of an int;
    [other] stands for the renderings this development does not compute
    (the shortest round-trip digits of a float, and [DualNumber.__str__]
    with its [{:.1f}] formats). *)
Definition py_str (other : pyvalue → string) (v : pyvalue) : string :=
  match v with
  | VNum (PInt z) => pretty z
  | _ => other v
  end.

(** References to mutable objects. *)
Abbreviation ref := positive.

(** ** The expression graph (cell 30) and forward-mode gradients (cell 48)

    [Const], [Add] and [Mul] objects are never written after construction,
    so a graph is the term that built it; a [Var] is a mutable object and
    appears in the graph as a reference into the store, shared by every
    parent that holds it. *)

Module Symbolic.

Record VarObj := new_VarObj { value : pyvalue; name : string }.

Inductive node :=
  | Const (value : pyvalue)
  | Var (self : ref)
  | Add (a b : node)
  | Mul (a b : node).

Abbreviation store := (gmap ref VarObj).

(** [Var(name, init_value=0)]: a new object. *)
Definition new_Var (name : string) (init_value : option pyvalue)
    (σ : store) : ref * store :=
  let self := fresh (dom σ) in
  (self, <[self := new_VarObj (default (VNum (PInt 0)) init_value) name]> σ).

(** [x.value = v] *)
Definition set_value (x : ref) (v : pyvalue) (σ : store) : store :=
  alter (λ o, new_VarObj v (name o)) x σ.

Fixpoint evaluate (self : node) (σ : store) : result pyvalue :=
  match self with
  | Const value => Ok value
  | Var x =>
      match σ !! x with
      | Some o => Ok (value o)
      | None => Raise NameError
      end
  | Add a b => va ← evaluate a σ; vb ← evaluate b σ; py_add va vb
  | Mul a b => va ← evaluate a σ; vb ← evaluate b σ; py_mul va vb
  end.

Fixpoint gradient (self : node) (var : ref) : node :=
  match self with
  | Const _ => Const (VNum (PInt 0))
  | Var x =>
      if decide (x = var) then Const (VNum (PInt 1)) else Const (VNum (PInt 0))
  | Add a b => Add (gradient a var) (gradient b var)
  | Mul a b => Add (Mul a (gradient b var)) (Mul (gradient a var) b)
  end.

Section Rendering.

(** Python's builtin [str] on the value a [Const] holds. *)
Variable str : pyvalue → string.

Fixpoint __str__ (self : node) (σ : store) : result string :=
  match self with
  | Const value => Ok (str value)
  | Var x =>
      match σ !! x with
      | Some o => Ok (name o)
      | None => Raise NameError
      end
  | Add a b =>
      sa ← __str__ a σ; sb ← __str__ b σ; Ok (sa +:+ " + " +:+ sb)
  | Mul a b =>
      sa ← __str__ a σ; sb ← __str__ b σ;
      Ok ("(" +:+ sa +:+ ") * (" +:+ sb +:+ ")")
  end.

End Rendering.

(** [f = Add(Mul(Mul(x, x), y), Add(y, Const(2)))], for [f(x,y) = x²y + y + 2]
    (cells 32 and 48). *)
Definition f_graph (x y : ref) : node :=
  Add (Mul (Mul (Var x) (Var x)) (Var y)) (Add (Var y) (Const (VNum (PInt 2)))).

(** Cells 32 and 34: [x = Var("x")], [y = Var("y")], the graph, then
    [x.value = 3] and [y.value = 4]. *)
Definition cell34 : node * store :=
  let '(x, σ) := new_Var "x" None ∅ in
  let '(y, σ) := new_Var "y" None σ in
  let f := f_graph x y in
  (f, set_value y (VNum (PInt 4)) (set_value x (VNum (PInt 3)) σ)).

(** Cell 48: [x = Var(name="x", init_value=3.)],
    [y = Var(name="y", init_value=4.)] and the graph. *)
Definition cell48 : ref * ref * node * store :=
  let '(x, σ) := new_Var "x" (Some (VNum (PFloat 3))) ∅ in
  let '(y, σ) := new_Var "y" (Some (VNum (PFloat 4))) σ in
  (x, y, f_graph x y, σ).

(** The variables a graph reaches. *)
Fixpoint reaches (self : node) (x : ref) : Prop :=
  match self with
  | Const _ => False
  | Var y => y = x
  | Add a b | Mul a b => reaches a x ∨ reaches b x
  end.

End Symbolic.

(** ** The reverse-mode graph (cell 72)

    Here [Add.evaluate] and [Mul.evaluate] store the result in [self.value],
    so operator nodes are mutable objects too: each carries the reference of
    its own object, whose [value] attribute exists only once [evaluate] has
    set it. *)

Module Reverse.

Record VarObj :=
  new_VarObj { value : pyvalue; name : string; gradient : pyvalue }.

Inductive node :=
  | Const (value : pyvalue)
  | Var (self : ref)
  | Add (self : ref) (a b : node)
  | Mul (self : ref) (a b : node).

(** The objects: the variables, and for every operator object its [value]
    attribute ([None] while it has not been set). *)
Record heap := new_heap {
  vars : gmap ref VarObj;
  ops : gmap ref (option pyvalue)
}.

Definition empty_heap : heap := new_heap ∅ ∅.

(** [Var(name, init_value=0)] *)
Definition new_Var (name : string) (init_value : option pyvalue) : M heap node :=
  λ h,
    let self := fresh (dom (vars h)) in
    let o := new_VarObj (default (VNum (PInt 0)) init_value) name (VNum (PInt 0)) in
    (Ok (Var self), new_heap (<[self := o]> (vars h)) (ops h)).

(** [BinaryOperator.__init__(self, a, b)], through [Add(a, b)] and
    [Mul(a, b)]. *)
Definition new_op (op : ref → node → node → node) (a b : node) : M heap node :=
  λ h,
    let self := fresh (dom (ops h)) in
    (Ok (op self a b), new_heap (vars h) (<[self := None]> (ops h))).

Definition new_Add : node → node → M heap node := new_op Add.
Definition new_Mul : node → node → M heap node := new_op Mul.

(** Reading the attribute [value] of a node. *)
Definition get_value (n : node) : M heap pyvalue :=
  λ h,
    match n with
    | Const value => (Ok value, h)
    | Var x =>
        match vars h !! x with
        | Some o => (Ok (value o), h)
        | None => (Raise NameError, h)
        end
    | Add x _ _ | Mul x _ _ =>
        match ops h !! x with
        | Some (Some v) => (Ok v, h)
        | Some None => (Raise AttributeError, h)
        | None => (Raise NameError, h)
        end
    end.

(** [self.value = v] on an operator object. *)
Definition set_op_value (x : ref) (v : pyvalue) : M heap unit :=
  modify (λ h, new_heap (vars h) (<[x := Some v]> (ops h))).

(** [self.gradient += gradient] on a variable. *)
Definition add_gradient (x : ref) (g : pyvalue) : M heap unit :=
  λ h,
    match vars h !! x with
    | Some o =>
        match py_add (gradient o) g with
        | Ok g' =>
            (Ok tt,
             new_heap (<[x := new_VarObj (value o) (name o) g']> (vars h)) (ops h))
        | Raise e => (Raise e, h)
        end
    | None => (Raise NameError, h)
    end.

Fixpoint evaluate (self : node) : M heap pyvalue :=
  match self with
  | Const _ | Var _ => get_value self
  | Add x a b =>
      va ← evaluate a; vb ← evaluate b;
      v ← lift (py_add va vb);
      set_op_value x v;; mret v
  | Mul x a b =>
      va ← evaluate a; vb ← evaluate b;
      v ← lift (py_mul va vb);
      set_op_value x v;; mret v
  end.

Fixpoint backpropagate (self : node) (gradient : pyvalue) : M heap unit :=
  match self with
  | Const _ => mret tt
  | Var x => add_gradient x gradient
  | Add _ a b =>
      backpropagate a gradient;;
      backpropagate b gradient
  | Mul _ a b =>
      vb ← get_value b; ga ← lift (py_mul gradient vb);
      backpropagate a ga;;
      va ← get_value a; gb ← lift (py_mul gradient va);
      backpropagate b gb
  end.

(** [x.gradient] *)
Definition get_gradient (n : node) (h : heap) : option pyvalue :=
  match n with
  | Var x => gradient <$> vars h !! x
  | _ => None
  end.

(** Cell 73, the construction: [x = Var("x", init_value=3)],
    [y = Var("y", init_value=4)] and
    [f = Add(Mul(Mul(x, x), y), Add(y, Const(2)))], for any initial values. *)
Definition build_f (x0 y0 : pyvalue) : M heap (node * node * node) :=
  x ← new_Var "x" (Some x0);
  y ← new_Var "y" (Some y0);
  xx ← new_Mul x x;
  xxy ← new_Mul xx y;
  y2 ← new_Add y (Const (VNum (PInt 2)));
  f ← new_Add xxy y2;
  mret (x, y, f).

(** Cell 73: the construction, [result = f.evaluate()] and
    [f.backpropagate(1.0)]. *)
Definition cell73 : M heap (node * node * pyvalue) :=
  '(x, y, f) ← build_f (VNum (PInt 3)) (VNum (PInt 4));
  result ← evaluate f;
  backpropagate f (VNum (PFloat 1));;
  mret (x, y, result).

(** What cell 73 leaves to read in cells 75 to 77: [result], [x.gradient]
    and [y.gradient]. *)
Definition cell73_outputs
    : result (pyvalue * option pyvalue * option pyvalue) :=
  let '(r, h) := cell73 empty_heap in
  (λ '(x, y, result), (result, get_gradient x h, get_gradient y h)) <$> r.

Section Rendering.

Variable str : pyvalue → string.

Fixpoint __str__ (self : node) (h : heap) : result string :=
  match self with
  | Const value => Ok (str value)
  | Var x =>
      match vars h !! x with
      | Some o => Ok (name o)
      | None => Raise NameError
      end
  | Add _ a b =>
      sa ← __str__ a h; sb ← __str__ b h; Ok (sa +:+ " + " +:+ sb)
  | Mul _ a b =>
      sa ← __str__ a h; sb ← __str__ b h;
      Ok ("(" +:+ sa +:+ ") * (" +:+ sb +:+ ")")
  end.

End Rendering.

(** Cell 74: [print(f)] on the graph of cell 73. *)
Definition cell74 (str : pyvalue → string) : result string :=
  match build_f (VNum (PInt 3)) (VNum (PInt 4)) empty_heap with
  | (Ok (_, _, f), h) => __str__ str f h
  | (Raise e, _) => Raise e
  end.

End Reverse.

(** ** Finite differences: [gradients] (cell 18)

    [vars_list] is a Python list object, so it is a reference into the
    world's lists; [func] is called on the unpacked elements and may read
    and write a state of its own. *)

Record world (St : Type) := new_world {
  lists : gmap ref (list pyvalue);
  user : St
}.
Arguments new_world {St} lists user.
Arguments lists {St} w.
Arguments user {St} w.

Section Gradients.

Context {St : Type}.
Variable func : list pyvalue → M St pyvalue.

(** The call of [func] on the unpacked elements of a list. *)
Definition call (args : list pyvalue) : M (world St) pyvalue :=
  λ w,
    let '(r, s) := func args (user w) in
    (r, new_world (lists w) s).

Definition read_list (l : ref) : M (world St) (list pyvalue) :=
  λ w,
    match lists w !! l with
    | Some xs => (Ok xs, w)
    | None => (Raise NameError, w)
    end.

(** A new list object. *)
Definition new_list (xs : list pyvalue) : M (world St) ref :=
  λ w,
    let l := fresh (dom (lists w)) in
    (Ok l, new_world (<[l := xs]> (lists w)) (user w)).

(** [l[:]]: a new list object with the same elements. *)
Definition copy_list (l : ref) : M (world St) ref :=
  xs ← read_list l; new_list xs.

(** [l[idx] += v] *)
Definition iadd_item (l : ref) (idx : nat) (v : pyvalue) : M (world St) unit :=
  xs ← read_list l;
  match xs !! idx with
  | Some x =>
      x' ← lift (py_add x v);
      modify (λ w, new_world (<[l := <[idx := x']> xs]> (lists w)) (user w))
  | None => lift (Raise IndexError)
  end.

(** The body of [for idx in range(len(vars_list))], over the indices that
    remain. *)
Fixpoint for_idx (vars_list : ref) (eps base_func_eval : pyvalue)
    (range : list nat) (partial_derivatives : list pyvalue)
    : M (world St) (list pyvalue) :=
  match range with
  | [] => mret partial_derivatives
  | idx :: range =>
      tweaked_vars ← copy_list vars_list;
      iadd_item tweaked_vars idx eps;;
      args ← read_list tweaked_vars;
      tweaked_func_eval ← call args;
      diff ← lift (py_sub tweaked_func_eval base_func_eval);
      derivative ← lift (py_truediv diff eps);
      for_idx vars_list eps base_func_eval range
        (partial_derivatives ++ [derivative])
  end.

(** [eps=0.0001] *)
Definition default_eps : pyvalue := VNum (PFloat 0x1.a36e2eb1c432dp-14).

Definition gradients (vars_list : ref) (eps : option pyvalue)
    : M (world St) (list pyvalue) :=
  let eps := default default_eps eps in
  args ← read_list vars_list;
  base_func_eval ← call args;
  xs ← read_list vars_list;
  for_idx vars_list eps base_func_eval (seq 0 (length xs)) [].

End Gradients.

(** ** The notebook's running example *)

(** [def f(x, y): return x*x*y + y + 2] (cell 6) *)
Definition f (args : list pyvalue) : result pyvalue :=
  match args with
  | [x; y] =>
      xx ← py_mul x x; xxy ← py_mul xx y; s ← py_add xxy y;
      py_add s (VNum (PInt 2))
  | _ => Raise TypeError
  end.

(** A function without state of its own, as [gradients] calls it. *)
Definition pure_func {St} (g : list pyvalue → result pyvalue)
    : list pyvalue → M St pyvalue :=
  λ args, lift (g args).

(** The six derivative graphs of the example, evaluated in a store. *)
Definition derivatives_at (σ : Symbolic.store) (x y : ref)
    : list (result pyvalue) :=
  let f := Symbolic.f_graph x y in
  let dfdx := Symbolic.gradient f x in
  let dfdy := Symbolic.gradient f y in
  [ Symbolic.evaluate dfdx σ; Symbolic.evaluate dfdy σ;
    Symbolic.evaluate (Symbolic.gradient dfdx x) σ;
    Symbolic.evaluate (Symbolic.gradient dfdx y) σ;
    Symbolic.evaluate (Symbolic.gradient dfdy x) σ;
    Symbolic.evaluate (Symbolic.gradient dfdy y) σ ].

(** The dual-number algebra as the specification words it:
    (a1, b1) + (a2, b2) = (a1 + a2, b1 + b2) and
    (a1, b1) * (a2, b2) = (a1 * a2, a1 * b2 + a2 * b1). *)
Definition dual_add_rule (a1 b1 a2 b2 : num) : result DualNumber :=
  v ← num_add a1 a2; e ← num_add b1 b2; Ok (new_DualNumber v e).

Definition dual_mul_rule (a1 b1 a2 b2 : num) : result DualNumber :=
  v ← num_mul a1 a2;
  p ← num_mul a1 b2; q ← num_mul a2 b1; e ← num_add p q;
  Ok (new_DualNumber v e).

(** A bare number [k] as the dual number (k, 0). *)
Definition coerced (k : num) : pyvalue :=
  VDual (new_DualNumber k (PFloat PrimFloat.zero)).

(** Cell 66: the graph of cell 48 evaluated with [x.value] and [y.value]
    rebound to dual numbers. *)
Definition cell66 (x_value y_value : DualNumber) : result pyvalue :=
  let '(x, y, f, σ) := Symbolic.cell48 in
  Symbolic.evaluate f
    (Symbolic.set_value y (VDual y_value)
       (Symbolic.set_value x (VDual x_value) σ)).

(** ** What [gradients] is specified to compute *)

Section GradientsSpec.

Context {St : Type}.

(** The calls of [func] on a sequence of argument lists, in order, each
    starting from the state the previous one left. *)
Fixpoint run_calls (func : list pyvalue → M St pyvalue)
    (argss : list (list pyvalue)) (s : St) : list (result pyvalue) * St :=
  match argss with
  | [] => ([], s)
  | args :: argss =>
      let '(r, s) := func args s in
      let '(rs, s) := run_calls func argss s in
      (r :: rs, s)
  end.

(** [func] with a counter of its invocations. *)
Definition counted (func : list pyvalue → M St pyvalue)
    : list pyvalue → M (St * nat) pyvalue :=
  λ args '(s, n),
    let '(r, s) := func args s in
    (r, (s, S n)).

(** The point with dimension [i] replaced by its perturbed coordinate, for
    every dimension. *)
Definition perturbed_points (point perturbed : list pyvalue)
    : list (list pyvalue) :=
  imap (λ i x', <[i := x']> point) perturbed.

(** [(tweaked - base) / eps] *)
Definition quotient (eps base tweaked derivative : pyvalue) : Prop :=
  ∃ diff, py_sub tweaked base = Ok diff ∧ py_truediv diff eps = Ok derivative.

Definition is_float (v : pyvalue) : Prop := ∃ q, v = VNum (PFloat q).

End GradientsSpec.

(** Cell 19/20: [gradients(f, [3, 4])] in a world whose only list is the
    argument. *)
Definition cell20_world : world unit :=
  new_world {[ 1%positive := [VNum (PInt 3); VNum (PInt 4)] ]} tt.

Definition cell20 : result (list pyvalue) * world unit :=
  gradients (pure_func f) 1%positive None cell20_world.

(** ** Renderings *)

(** A rendering [s] of a composite node wraps its operands' renderings
    [sa] and [sb] in parentheses. *)
Definition wraps_operands (s sa sb : string) : Prop :=
  ∃ op, s = "(" +:+ sa +:+ ")" +:+ op +:+ "(" +:+ sb +:+ ")".

(** Two variables named x and y, as [Var("x")] and [Var("y")] build them. *)
Definition two_vars : ref * ref * Symbolic.store :=
  let '(x, σ) := Symbolic.new_Var "x" None ∅ in
  let '(y, σ) := Symbolic.new_Var "y" None σ in
  (x, y, σ).

(** ** Gradient accumulators *)

(** Two numbers are the same: identical, or floats that compare equal
    (the two float zeros). *)
Definition same_number (a b : num) : Prop :=
  a = b ∨
  match a, b with
  | PFloat x, PFloat y => PrimFloat.eqb x y = true
  | _, _ => False
  end.

(** A graph that is one new variable: construction, [evaluate], then
    [backpropagate(seed)]; the outcome is the variable's [gradient]. *)
Definition single_variable_pass (name : string) (init_value : option pyvalue)
    (seed : pyvalue) : M Reverse.heap (option pyvalue) :=
  x ← Reverse.new_Var name init_value;
  Reverse.evaluate x;;
  Reverse.backpropagate x seed;;
  h ← get; mret (Reverse.get_gradient x h).

(** Cell 73 followed by a second pass, [f.evaluate()] and
    [f.backpropagate(1.0)], with no reset in between; the outcome is
    [x.gradient] and [y.gradient]. *)
Definition cell73_two_passes : result (option pyvalue * option pyvalue) :=
  fst
    (('(x, y, f) ← Reverse.build_f (VNum (PInt 3)) (VNum (PInt 4));
      Reverse.evaluate f;;
      Reverse.backpropagate f (VNum (PFloat 1));;
      Reverse.evaluate f;;
      Reverse.backpropagate f (VNum (PFloat 1));;
      h ← get;
      mret (Reverse.get_gradient x h, Reverse.get_gradient y h))
       Reverse.empty_heap).

(** ** Zero and finite values *)

(** A number within the range of the finite floats: a float that is neither
    an infinity nor a NaN, or an int that converts to one. *)
Definition num_finite (n : num) : bool :=
  match to_float n with
  | Ok q => PrimFloat.is_finite q
  | Raise _ => false
  end.

Definition value_finite (v : pyvalue) : bool :=
  match v with
  | VNum n => num_finite n
  | VDual d => num_finite (value d) && num_finite (eps d)
  end.

(** A value that is zero: the int 0, a float zero, or a dual number whose
    two components are zero. *)
Definition value_is_zero (v : pyvalue) : bool :=
  match v with
  | VNum n => num_is_zero n
  | VDual d => num_is_zero (value d) && num_is_zero (eps d)
  end.

(** Every node of the graph evaluates, to a finite value. *)
Fixpoint all_finite (n : Symbolic.node) (σ : Symbolic.store) : Prop :=
  (∃ v, Symbolic.evaluate n σ = Ok v ∧ value_finite v = true) ∧
  match n with
  | Symbolic.Const _ | Symbolic.Var _ => True
  | Symbolic.Add a b | Symbolic.Mul a b => all_finite a σ ∧ all_finite b σ
  end.

(** Every constant and every variable of the graph holds an int. *)
Fixpoint ints_only (n : Symbolic.node) (σ : Symbolic.store) : Prop :=
  match n with
  | Symbolic.Const v => ∃ z, v = VNum (PInt z)
  | Symbolic.Var x => ∃ o z, σ !! x = Some o ∧ Symbolic.value o = VNum (PInt z)
  | Symbolic.Add a b | Symbolic.Mul a b => ints_only a σ ∧ ints_only b σ
  end.

(** [x = Var("x", float("inf"))], [y = Var("y")] and the graph [Mul(x, x)],
    which does not reach [y]. *)
Definition unrelated_target : Symbolic.node * ref * Symbolic.store :=
  let '(x, σ) :=
    Symbolic.new_Var "x" (Some (VNum (PFloat PrimFloat.infinity))) ∅ in
  let '(y, σ) := Symbolic.new_Var "y" None σ in
  (Symbolic.Mul (Symbolic.Var x) (Symbolic.Var x), y, σ).

(** Two variables with the same name, [a = Var("x", 3.)] and
    [b = Var("x", 4.)]. *)
Definition same_name : ref * ref * Symbolic.store :=
  let '(a, σ) := Symbolic.new_Var "x" (Some (VNum (PFloat 3))) ∅ in
  let '(b, σ) := Symbolic.new_Var "x" (Some (VNum (PFloat 4))) σ in
  (a, b, σ).

(** Classes of binary64 values, on their specification. *)
Definition SF_finite (x : spec_float) : bool :=
  match x with
  | S754_zero _ | S754_finite _ _ _ => true
  | _ => false
  end.

Definition SF_zero (x : spec_float) : bool :=
  match x with
  | S754_zero _ => true
  | _ => false
  end.

(** The graph of cell 48 and one more variable, [z = Var("z")], that the
    graph does not hold. *)
Definition cell48_and_z : Symbolic.node * ref * Symbolic.store :=
  let '(_, _, f, σ) := Symbolic.cell48 in
  let '(z, σ) := Symbolic.new_Var "z" None σ in
  (f, z, σ).

(** ** The two variants of the graph side by side *)

(** A reverse-mode graph without the references of its operator objects,
    and a heap's variables without their gradients: what the first variant
    of the classes (cell 30) keeps of them. *)
Fixpoint erase (n : Reverse.node) : Symbolic.node :=
  match n with
  | Reverse.Const v => Symbolic.Const v
  | Reverse.Var x => Symbolic.Var x
  | Reverse.Add _ a b => Symbolic.Add (erase a) (erase b)
  | Reverse.Mul _ a b => Symbolic.Mul (erase a) (erase b)
  end.

Definition store_of (h : Reverse.heap) : Symbolic.store :=
  (λ o, Symbolic.new_VarObj (Reverse.value o) (Reverse.name o))
    <$> Reverse.vars h.

(** The references of the operator objects of a graph, one per occurrence. *)
Fixpoint op_refs (n : Reverse.node) : list ref :=
  match n with
  | Reverse.Const _ | Reverse.Var _ => []
  | Reverse.Add x a b | Reverse.Mul x a b => x :: op_refs a ++ op_refs b
  end.

(** The value of a graph over ints, and its partial derivative with respect
    to a variable, as integers. *)
Fixpoint int_value (n : Symbolic.node) (σ : Symbolic.store) : Z :=
  match n with
  | Symbolic.Const (VNum (PInt z)) => z
  | Symbolic.Const _ => 0
  | Symbolic.Var x =>
      match Symbolic.value <$> σ !! x with
      | Some (VNum (PInt z)) => z
      | _ => 0
      end
  | Symbolic.Add a b => int_value a σ + int_value b σ
  | Symbolic.Mul a b => int_value a σ * int_value b σ
  end.

Fixpoint int_partial (n : Symbolic.node) (σ : Symbolic.store) (x : ref) : Z :=
  match n with
  | Symbolic.Const _ => 0
  | Symbolic.Var y => if decide (y = x) then 1 else 0
  | Symbolic.Add a b => int_partial a σ x + int_partial b σ x
  | Symbolic.Mul a b =>
      int_value a σ * int_partial b σ x + int_partial a σ x * int_value b σ
  end.

Definition is_int (v : pyvalue) : bool :=
  match v with
  | VNum (PInt _) => true
  | _ => false
  end.

(** Every variable of the heap has an int [gradient]. *)
Definition int_gradients (h : Reverse.heap) : Prop :=
  map_Forall (λ _ o, is_int (Reverse.gradient o) = true) (Reverse.vars h).

(** Every operator node of the graph holds, as its [value] attribute, the
    value of its subgraph. *)
Fixpoint cached (n : Reverse.node) (h : Reverse.heap) : Prop :=
  match n with
  | Reverse.Const _ | Reverse.Var _ => True
  | Reverse.Add x a b | Reverse.Mul x a b =>
      Reverse.ops h !! x =
        Some (Some (VNum (PInt (int_value (erase n) (store_of h))))) ∧
      cached a h ∧ cached b h
  end.

(** The variable [o] with [d] added to its int [gradient]. *)
Definition add_to_gradient (d : Z) (o : Reverse.VarObj) : Reverse.VarObj :=
  match Reverse.gradient o with
  | VNum (PInt g) =>
      Reverse.new_VarObj (Reverse.value o) (Reverse.name o) (VNum (PInt (g + d)))
  | _ => o
  end.

(** What a pass of [backpropagate] with seed [g] leaves in the variables. *)
Definition bumped (n : Reverse.node) (g : Z) (h h' : Reverse.heap) : Prop :=
  Reverse.ops h' = Reverse.ops h ∧
  ∀ x, Reverse.vars h' !! x =
       add_to_gradient (g * int_partial (erase n) (store_of h) x)
         <$> Reverse.vars h !! x.

Definition cell73_graph : Reverse.node * Reverse.heap :=
  match Reverse.build_f (VNum (PInt 3)) (VNum (PInt 4)) Reverse.empty_heap with
  | (Ok (_, _, f), h) => (f, h)
  | (Raise _, h) => (Reverse.Const (VNum (PInt 0)), h)
  end.

(** The number of nodes of a graph, counting a shared node once per
    occurrence (as [evaluate] and [gradient] traverse it). *)
Fixpoint node_count (n : Symbolic.node) : nat :=
  match n with
  | Symbolic.Const _ | Symbolic.Var _ => 1
  | Symbolic.Add a b | Symbolic.Mul a b => S (node_count a + node_count b)
  end.

(** The ordinary value a value carries: a number itself, the [value]
    component of a dual number. *)
Definition primal (v : pyvalue) : pyvalue :=
  VNum (value (DualNumber.to_dual v)).

Fixpoint primal_graph (n : Symbolic.node) : Symbolic.node :=
  match n with
  | Symbolic.Const v => Symbolic.Const (primal v)
  | Symbolic.Var x => Symbolic.Var x
  | Symbolic.Add a b => Symbolic.Add (primal_graph a) (primal_graph b)
  | Symbolic.Mul a b => Symbolic.Mul (primal_graph a) (primal_graph b)
  end.

Definition primal_store (σ : Symbolic.store) : Symbolic.store :=
  (λ o, Symbolic.new_VarObj (primal (Symbolic.value o)) (Symbolic.name o)) <$> σ.

(** [def df(x,y): return 2*x*y, x*x + 1] (cell 8) *)
Definition df (args : list pyvalue) : result (pyvalue * pyvalue) :=
  match args with
  | [x; y] =>
      a ← py_mul (VNum (PInt 2)) x; a ← py_mul a y;
      b ← py_mul x x; b ← py_add b (VNum (PInt 1));
      Ok (a, b)
  | _ => Raise TypeError
  end.

(** [def d2f(x, y): return [2*y, 2*x], [2*x, 0]] (cell 13) *)
Definition d2f (args : list pyvalue)
    : result (list pyvalue * list pyvalue) :=
  match args with
  | [x; y] =>
      a ← py_mul (VNum (PInt 2)) y; b ← py_mul (VNum (PInt 2)) x;
      c ← py_mul (VNum (PInt 2)) x;
      Ok ([a; b], [c; VNum (PInt 0)])
  | _ => Raise TypeError
  end.

(** Cells 48 to 52 on a graph: the two gradient graphs evaluated, and the
    four second-order gradient graphs evaluated. *)
Definition symbolic_df (f : Symbolic.node) (x y : ref) (σ : Symbolic.store)
    : result (pyvalue * pyvalue) :=
  a ← Symbolic.evaluate (Symbolic.gradient f x) σ;
  b ← Symbolic.evaluate (Symbolic.gradient f y) σ;
  Ok (a, b).

Definition symbolic_d2f (f : Symbolic.node) (x y : ref) (σ : Symbolic.store)
    : result (list pyvalue * list pyvalue) :=
  let dfdx := Symbolic.gradient f x in
  let dfdy := Symbolic.gradient f y in
  a ← Symbolic.evaluate (Symbolic.gradient dfdx x) σ;
  b ← Symbolic.evaluate (Symbolic.gradient dfdx y) σ;
  c ← Symbolic.evaluate (Symbolic.gradient dfdy x) σ;
  d ← Symbolic.evaluate (Symbolic.gradient dfdy y) σ;
  Ok ([a; b], [c; d]).

(** The reference of an operator node's own object. *)
Definition op_ref (n : Reverse.node) : option ref :=
  match n with
  | Reverse.Const _ | Reverse.Var _ => None
  | Reverse.Add x _ _ | Reverse.Mul x _ _ => Some x
  end.

(** A product whose right operand is a sum, built and not evaluated:
    [x = Var("x", 3)], [s = Add(x, x)], [m = Mul(x, s)]. *)
Definition unevaluated_product : Reverse.node * Reverse.heap :=
  match
    (x ← Reverse.new_Var "x" (Some (VNum (PInt 3)));
     s ← Reverse.new_Add x x;
     Reverse.new_Mul x s) Reverse.empty_heap
  with
  | (Ok m, h) => (m, h)
  | (Raise _, h) => (Reverse.Const (VNum (PInt 0)), h)
  end.

(** ** Derivatives by finite differences (cells 19 to 26)

    [func] is the function the global name [f] is bound to. The list
    literal [[x, y]] in the bodies is a new list object of the world the
    body runs in; the functions [gradients] is applied to have that world
    for their state. *)

(** [xs[k]] *)
Definition item (k : nat) (xs : list pyvalue) : result pyvalue :=
  match xs !! k with
  | Some v => Ok v
  | None => Raise IndexError
  end.

(** [def df(x, y): return gradients(f, [x, y])] (cell 19) *)
Definition df_numeric {St} (func : list pyvalue → M St pyvalue)
    (args : list pyvalue) : M (world St) (list pyvalue) :=
  match args with
  | [x; y] => l ← new_list [x; y]; gradients func l None
  | _ => lift (Raise TypeError)
  end.

(** [def dfdx(x, y): return gradients(f, [x,y])[0]] (cell 23) *)
Definition dfdx {St} (func : list pyvalue → M St pyvalue)
    (args : list pyvalue) : M (world St) pyvalue :=
  r ← df_numeric func args; lift (item 0 r).

(** [def dfdy(x, y): return gradients(f, [x,y])[1]] (cell 23) *)
Definition dfdy {St} (func : list pyvalue → M St pyvalue)
    (args : list pyvalue) : M (world St) pyvalue :=
  r ← df_numeric func args; lift (item 1 r).

(** [def d2f(x, y): return [gradients(dfdx, [x, y]), gradients(dfdy, [x, y])]]
    (cell 25) *)
Definition d2f_numeric {St} (func : list pyvalue → M St pyvalue)
    (args : list pyvalue) : M (world (world St)) (list (list pyvalue)) :=
  match args with
  | [x; y] =>
      l1 ← new_list [x; y]; r1 ← gradients (dfdx func) l1 None;
      l2 ← new_list [x; y]; r2 ← gradients (dfdy func) l2 None;
      mret [r1; r2]
  | _ => lift (Raise TypeError)
  end.

(** A world without lists. *)
Definition empty_world {St} (s : St) : world St := new_world ∅ s.

(** Cell 26: [d2f(3, 4)], with the calls of [f] counted. *)
Definition cell26
    : result (list (list pyvalue)) * world (world (unit * nat)) :=
  d2f_numeric (counted (pure_func f)) [VNum (PInt 3); VNum (PInt 4)]
    (empty_world (empty_world (tt, 0))).


(** ** [gradients] on a function that holds references to lists

    A Python function can hold a reference to a list object, [vars_list]
    included (a closure, a global), and read or write it when it is called.
    Such a [func] runs on the whole world; [gradients] is the same code. *)

Module Aliased.

Section Gradients.

Context {St : Type}.
Variable func : list pyvalue → M (world St) pyvalue.

Fixpoint for_idx (vars_list : ref) (eps base_func_eval : pyvalue)
    (range : list nat) (partial_derivatives : list pyvalue)
    : M (world St) (list pyvalue) :=
  match range with
  | [] => mret partial_derivatives
  | idx :: range =>
      tweaked_vars ← copy_list vars_list;
      iadd_item tweaked_vars idx eps;;
      args ← read_list tweaked_vars;
      tweaked_func_eval ← func args;
      diff ← lift (py_sub tweaked_func_eval base_func_eval);
      derivative ← lift (py_truediv diff eps);
      for_idx vars_list eps base_func_eval range
        (partial_derivatives ++ [derivative])
  end.

Definition gradients (vars_list : ref) (eps : option pyvalue)
    : M (world St) (list pyvalue) :=
  let eps := default default_eps eps in
  args ← read_list vars_list;
  base_func_eval ← func args;
  xs ← read_list vars_list;
  for_idx vars_list eps base_func_eval (seq 0 (length xs)) [].

End Gradients.

End Aliased.

(** [l[idx] = v] *)
Definition set_item {St} (l : ref) (idx : nat) (v : pyvalue)
    : M (world St) unit :=
  xs ← read_list l;
  match xs !! idx with
  | Some _ =>
      modify (λ w, new_world (<[l := <[idx := v]> xs]> (lists w)) (user w))
  | None => lift (Raise IndexError)
  end.

(** A function that holds a reference to a list and writes it:
    [def g(x, y): held[0] = 99; return x + y]. *)
Definition writes_held_list {St} (held : ref) (args : list pyvalue)
    : M (world St) pyvalue :=
  match args with
  | [x; y] => set_item held 0 (VNum (PInt 99));; lift (py_add x y)
  | _ => lift (Raise TypeError)
  end.

(** The world of cell 20 and a second list, [[0]]. *)
Definition two_lists_world : world unit :=
  new_world {[ 1%positive := [VNum (PInt 3); VNum (PInt 4)];
               2%positive := [VNum (PInt 0)] ]} tt.

(** [func] with a log of how each of its invocations ended, in order. *)
Definition logged {St} (func : list pyvalue → M St pyvalue)
    : list pyvalue → M (St * list (result pyvalue)) pyvalue :=
  λ args '(s, log),
    let '(r, s) := func args s in
    (r, (s, log ++ [r])).

(** What a computation added to the log, and that a call that raised is the
    last one and gives the computation its exception. *)
Definition stops_at_first_exception {St A}
    (log : list (result pyvalue))
    (out : result A * world (St * list (result pyvalue))) : Prop :=
  ∃ rs, snd (user (snd out)) = log ++ rs ∧
    ∀ i e, rs !! i = Some (Raise e) →
      fst out = Raise e ∧ S i = length rs.

(** ** The first classes as objects (cells 30 and 48)

    Every instance of [Const], [Var], [Add] and [Mul] is an object of its
    own, held by reference; a constructor call makes a new object, and
    [gradient] makes one or more. [fuel] bounds the depth of the recursive
    calls: [None] is a recursion deeper than that, or a reference that holds
    no object. *)

Module Objects.

Inductive obj :=
  | Const (value : pyvalue)
  | Var (name : string) (value : pyvalue)
  | Add (a b : ref)
  | Mul (a b : ref).

Abbreviation heap := (gmap ref obj).

(** A constructor call. *)
Definition new (o : obj) (h : heap) : ref * heap :=
  let self := fresh (dom h) in
  (self, <[self := o]> h).

(** [x.value = v] *)
Definition set_value (x : ref) (v : pyvalue) (h : heap) : heap :=
  alter (λ o, match o with Var name _ => Var name v | _ => o end) x h.

(** [a.evaluate() op b.evaluate()] *)
Definition operate (op : pyvalue → pyvalue → result pyvalue)
    (ra rb : option (result pyvalue)) : option (result pyvalue) :=
  match ra with
  | Some (Ok va) =>
      match rb with
      | Some (Ok vb) => Some (op va vb)
      | Some (Raise e) => Some (Raise e)
      | None => None
      end
  | Some (Raise e) => Some (Raise e)
  | None => None
  end.

Fixpoint evaluate (fuel : nat) (h : heap) (self : ref)
    : option (result pyvalue) :=
  match fuel with
  | 0 => None
  | S fuel =>
      match h !! self with
      | Some (Const value) => Some (Ok value)
      | Some (Var _ value) => Some (Ok value)
      | Some (Add a b) =>
          operate py_add (evaluate fuel h a) (evaluate fuel h b)
      | Some (Mul a b) =>
          operate py_mul (evaluate fuel h a) (evaluate fuel h b)
      | None => None
      end
  end.

(** Cell 48:
    [Const.gradient = lambda self, var: Const(0)],
    [Var.gradient = lambda self, var: Const(1) if self is var else Const(0)],
    [Add.gradient = lambda self, var:
       Add(self.a.gradient(var), self.b.gradient(var))],
    [Mul.gradient = lambda self, var:
       Add(Mul(self.a, self.b.gradient(var)),
           Mul(self.a.gradient(var), self.b))],
    with the constructor calls in the order Python makes them. *)
Fixpoint gradient (fuel : nat) (self var : ref) (h : heap)
    : option (ref * heap) :=
  match fuel with
  | 0 => None
  | S fuel =>
      match h !! self with
      | Some (Const _) => Some (new (Const (VNum (PInt 0))) h)
      | Some (Var _ _) =>
          if decide (self = var) then Some (new (Const (VNum (PInt 1))) h)
          else Some (new (Const (VNum (PInt 0))) h)
      | Some (Add a b) =>
          '(ga, h) ← gradient fuel a var h;
          '(gb, h) ← gradient fuel b var h;
          Some (new (Add ga gb) h)
      | Some (Mul a b) =>
          '(gb, h) ← gradient fuel b var h;
          let '(l, h) := new (Mul a gb) h in
          '(ga, h) ← gradient fuel a var h;
          let '(r, h) := new (Mul ga b) h in
          Some (new (Add l r) h)
      | None => None
      end
  end.

(** The objects reached from [self] form the graph that the term [t]
    describes, each [Var] object standing for itself. *)
Inductive represents (h : heap) : ref → Symbolic.node → Prop :=
  | represents_Const self value :
      h !! self = Some (Const value) →
      represents h self (Symbolic.Const value)
  | represents_Var self name value :
      h !! self = Some (Var name value) →
      represents h self (Symbolic.Var self)
  | represents_Add self a b ta tb :
      h !! self = Some (Add a b) →
      represents h a ta → represents h b tb →
      represents h self (Symbolic.Add ta tb)
  | represents_Mul self a b ta tb :
      h !! self = Some (Mul a b) →
      represents h a ta → represents h b tb →
      represents h self (Symbolic.Mul ta tb).

(** The [Var] objects of a heap. *)
Definition store (h : heap) : Symbolic.store :=
  omap (λ o, match o with
             | Var name value => Some (Symbolic.new_VarObj value name)
             | _ => None
             end) h.

(** [k] holds the objects of [h], with the variables bound to any values. *)
Definition rebinds (h k : heap) : Prop :=
  ∀ r,
    match h !! r with
    | Some (Var name _) => ∃ value, k !! r = Some (Var name value)
    | o => k !! r = o
    end.

(** Cell 48: [x = Var(name="x", init_value=3.)],
    [y = Var(name="y", init_value=4.)],
    [f = Add(Mul(Mul(x, x), y), Add(y, Const(2)))]. *)
Definition cell48 : ref * ref * ref * heap :=
  let '(x, h) := new (Var "x" (VNum (PFloat 3))) ∅ in
  let '(y, h) := new (Var "y" (VNum (PFloat 4))) h in
  let '(xx, h) := new (Mul x x) h in
  let '(xxy, h) := new (Mul xx y) h in
  let '(two, h) := new (Const (VNum (PInt 2))) h in
  let '(y2, h) := new (Add y two) h in
  let '(f, h) := new (Add xxy y2) h in
  (x, y, f, h).

End Objects.

(** The depth of the calls that a traversal of a graph makes. *)
Fixpoint depth (t : Symbolic.node) : nat :=
  match t with
  | Symbolic.Const _ | Symbolic.Var _ => 1
  | Symbolic.Add a b | Symbolic.Mul a b => S (Nat.max (depth a) (depth b))
  end.

(** * Properties *)

(** ** Results and the state monad *)

Lemma bind_Ok {A B} (m : result A) (k : A → result B) (b : B) :
  m ≫= k = Ok b ↔ ∃ a, m = Ok a ∧ k a = Ok b.
Proof.
  destruct m as [a|e]; simpl.
  - split; [eauto | intros (a' & [= <-] & H); exact H].
  - split; [discriminate | intros (a' & [=] & _)].
Qed.

Lemma fmap_Ok {A B} (g : A → B) (m : result A) (b : B) :
  g <$> m = Ok b ↔ ∃ a, m = Ok a ∧ b = g a.
Proof.
  destruct m as [a|e]; simpl.
  - split; [intros [= <-]; eauto | intros (a' & [= <-] & ->); reflexivity].
  - split; [discriminate | intros (a' & [=] & _)].
Qed.

Lemma M_bind_Ok {St A B} (m : M St A) (k : A → M St B) s b s' :
  (m ≫= k) s = (Ok b, s') ↔ ∃ a s1, m s = (Ok a, s1) ∧ k a s1 = (Ok b, s').
Proof.
  unfold mbind, M_bind. destruct (m s) as [[a|e] s1].
  - split; [eauto | intros (a' & s1' & [= <- <-] & H); exact H].
  - split; [discriminate | intros (a' & s1' & [=] & _)].
Qed.

(** ** C1: evaluation *)

Lemma Symbolic_evaluate_Add a b σ v :
  Symbolic.evaluate (Symbolic.Add a b) σ = Ok v ↔
  ∃ va vb, Symbolic.evaluate a σ = Ok va ∧ Symbolic.evaluate b σ = Ok vb ∧
           py_add va vb = Ok v.
Proof.
  simpl. rewrite bind_Ok. setoid_rewrite bind_Ok. split.
  - intros (va & Ha & vb & Hb & H). eauto.
  - intros (va & vb & Ha & Hb & H). eauto.
Qed.

Lemma Symbolic_evaluate_Mul a b σ v :
  Symbolic.evaluate (Symbolic.Mul a b) σ = Ok v ↔
  ∃ va vb, Symbolic.evaluate a σ = Ok va ∧ Symbolic.evaluate b σ = Ok vb ∧
           py_mul va vb = Ok v.
Proof.
  simpl. rewrite bind_Ok. setoid_rewrite bind_Ok. split.
  - intros (va & Ha & vb & Hb & H). eauto.
  - intros (va & vb & Ha & Hb & H). eauto.
Qed.

Lemma Reverse_evaluate_op (op : pyvalue → pyvalue → result pyvalue)
    x a b h v h' :
  (va ← Reverse.evaluate a; vb ← Reverse.evaluate b;
   v ← lift (op va vb); Reverse.set_op_value x v;; mret v) h = (Ok v, h') ↔
  ∃ va vb h1 h2,
    Reverse.evaluate a h = (Ok va, h1) ∧ Reverse.evaluate b h1 = (Ok vb, h2) ∧
    op va vb = Ok v ∧
    h' = Reverse.new_heap (Reverse.vars h2) (<[x := Some v]> (Reverse.ops h2)).
Proof.
  split.
  - intros H.
    apply M_bind_Ok in H as (va & h1 & Ha & H).
    apply M_bind_Ok in H as (vb & h2 & Hb & H).
    apply M_bind_Ok in H as (v0 & h3 & Hop & H).
    unfold lift in Hop. injection Hop as Hop <-.
    injection H as <- <-. eauto 8.
  - intros (va & vb & h1 & h2 & Ha & Hb & Hop & ->).
    apply M_bind_Ok. exists va, h1. split; [exact Ha|].
    apply M_bind_Ok. exists vb, h2. split; [exact Hb|].
    apply M_bind_Ok. exists v, h2. unfold lift. rewrite Hop.
    split; reflexivity.
Qed.

Lemma Symbolic_f_graph_evaluate σ x y ox oy :
  σ !! x = Some ox → σ !! y = Some oy →
  Symbolic.evaluate (Symbolic.f_graph x y) σ =
    (xx ← py_mul (Symbolic.value ox) (Symbolic.value ox);
     xxy ← py_mul xx (Symbolic.value oy);
     y2 ← py_add (Symbolic.value oy) (VNum (PInt 2));
     py_add xxy y2).
Proof.
  intros Hx Hy. unfold Symbolic.f_graph. simpl. rewrite Hx, Hy. simpl.
  destruct (py_mul _ _) as [xx|]; simpl; [|reflexivity].
  destruct (py_mul xx _) as [xxy|]; reflexivity.
Qed.

(** C1. [evaluate] follows the four rules in both variants of the graph: a
    [Const] and a [Var] give their [value]; [Add] and [Mul] succeed exactly
    when both operands evaluate and the sum, or the product, of the two
    values is defined (so no operand is skipped, whatever the other one is
    worth), and the reverse-mode variant also stores the result in the
    node. On the graph of f(x,y) = x²y + y + 2 with x bound to 3 and y bound
    to 4, [evaluate] returns 42: in every store (ints or floats), in the
    notebook's cell 34 and in its cell 73. *)
Theorem C1_evaluate_rules_and_value :
  (∀ v σ, Symbolic.evaluate (Symbolic.Const v) σ = Ok v) ∧
  (∀ x o σ, σ !! x = Some o →
     Symbolic.evaluate (Symbolic.Var x) σ = Ok (Symbolic.value o)) ∧
  (∀ a b σ v,
     Symbolic.evaluate (Symbolic.Add a b) σ = Ok v ↔
     ∃ va vb, Symbolic.evaluate a σ = Ok va ∧ Symbolic.evaluate b σ = Ok vb ∧
              py_add va vb = Ok v) ∧
  (∀ a b σ v,
     Symbolic.evaluate (Symbolic.Mul a b) σ = Ok v ↔
     ∃ va vb, Symbolic.evaluate a σ = Ok va ∧ Symbolic.evaluate b σ = Ok vb ∧
              py_mul va vb = Ok v) ∧
  (∀ v h, Reverse.evaluate (Reverse.Const v) h = (Ok v, h)) ∧
  (∀ x o h, Reverse.vars h !! x = Some o →
     Reverse.evaluate (Reverse.Var x) h = (Ok (Reverse.value o), h)) ∧
  (∀ x a b h v h',
     Reverse.evaluate (Reverse.Add x a b) h = (Ok v, h') ↔
     ∃ va vb h1 h2,
       Reverse.evaluate a h = (Ok va, h1) ∧
       Reverse.evaluate b h1 = (Ok vb, h2) ∧
       py_add va vb = Ok v ∧
       h' = Reverse.new_heap (Reverse.vars h2)
              (<[x := Some v]> (Reverse.ops h2))) ∧
  (∀ x a b h v h',
     Reverse.evaluate (Reverse.Mul x a b) h = (Ok v, h') ↔
     ∃ va vb h1 h2,
       Reverse.evaluate a h = (Ok va, h1) ∧
       Reverse.evaluate b h1 = (Ok vb, h2) ∧
       py_mul va vb = Ok v ∧
       h' = Reverse.new_heap (Reverse.vars h2)
              (<[x := Some v]> (Reverse.ops h2))) ∧
  (∀ σ x y ox oy, σ !! x = Some ox → σ !! y = Some oy →
     (Symbolic.value ox = VNum (PInt 3) → Symbolic.value oy = VNum (PInt 4) →
      Symbolic.evaluate (Symbolic.f_graph x y) σ = Ok (VNum (PInt 42))) ∧
     (Symbolic.value ox = VNum (PFloat 3) → Symbolic.value oy = VNum (PFloat 4) →
      Symbolic.evaluate (Symbolic.f_graph x y) σ = Ok (VNum (PFloat 42)))) ∧
  (let '(f, σ) := Symbolic.cell34 in
   Symbolic.evaluate f σ = Ok (VNum (PInt 42))) ∧
  fst <$> (fst <$> Reverse.cell73_outputs) = Ok (VNum (PInt 42)).
Proof.
  split_and!.
  - reflexivity.
  - intros x o σ H. simpl. rewrite H. reflexivity.
  - apply Symbolic_evaluate_Add.
  - apply Symbolic_evaluate_Mul.
  - reflexivity.
  - intros x o h H. simpl. rewrite H. reflexivity.
  - intros. apply Reverse_evaluate_op.
  - intros. apply Reverse_evaluate_op.
  - intros σ x y ox oy Hx Hy. split; intros Hvx Hvy;
      rewrite (Symbolic_f_graph_evaluate σ x y ox oy Hx Hy), Hvx, Hvy;
      vm_compute; reflexivity.
  - vm_compute. reflexivity.
  - vm_compute. reflexivity.
Qed.

(** ** C2: forward-mode symbolic gradients *)

(** Evaluating a graph over the two variables [x] and [y] of a store. *)
Ltac eval_xy Hx Hy Hvx Hvy :=
  unfold derivatives_at, Symbolic.f_graph; cbn [Symbolic.gradient];
  repeat (case_decide; [try congruence | try congruence]);
  cbn [Symbolic.evaluate]; rewrite ?Hx, ?Hy, ?Hvx, ?Hvy;
  vm_compute; reflexivity.

Lemma Symbolic_f_graph_gradients σ x y ox oy :
  x ≠ y → σ !! x = Some ox → σ !! y = Some oy →
  (Symbolic.value ox = VNum (PFloat 3) → Symbolic.value oy = VNum (PFloat 4) →
   derivatives_at σ x y =
     (λ q, Ok (VNum (PFloat q))) <$> [24; 10; 8; 6; 6; 0]%float) ∧
  (Symbolic.value ox = VNum (PInt 3) → Symbolic.value oy = VNum (PInt 4) →
   derivatives_at σ x y =
     (λ n, Ok (VNum (PInt n))) <$> [24; 10; 8; 6; 6; 0]%Z).
Proof.
  intros Hne Hx Hy.
  split; intros Hvx Hvy; eval_xy Hx Hy Hvx Hvy.
Qed.

(** C2. [gradient] follows the four rules: a [Const] gives [Const(0)]; a
    [Var] gives [Const(1)] exactly when it is the target object and
    [Const(0)] otherwise; [Add] gives the [Add] of the operand gradients;
    [Mul(a, b)] gives [Add(Mul(a, b'), Mul(a', b))], the summands in that
    order. On the graph of f(x,y) = x²y + y + 2 at x = 3, y = 4 the gradient
    graphs evaluate to 24 and 10, and their own gradients to the Hessian
    [[8, 6], [6, 0]]: in every store where two distinct variables hold these
    values (floats as in cell 48, or ints), and in cell 48 itself. *)
Theorem C2_symbolic_gradient_rules_and_values :
  (∀ v var,
     Symbolic.gradient (Symbolic.Const v) var = Symbolic.Const (VNum (PInt 0))) ∧
  (∀ x var,
     (x = var → Symbolic.gradient (Symbolic.Var x) var =
                  Symbolic.Const (VNum (PInt 1))) ∧
     (x ≠ var → Symbolic.gradient (Symbolic.Var x) var =
                  Symbolic.Const (VNum (PInt 0))) ∧
     (Symbolic.gradient (Symbolic.Var x) var = Symbolic.Const (VNum (PInt 1))
      ↔ x = var)) ∧
  (∀ a b var,
     Symbolic.gradient (Symbolic.Add a b) var =
       Symbolic.Add (Symbolic.gradient a var) (Symbolic.gradient b var)) ∧
  (∀ a b var,
     Symbolic.gradient (Symbolic.Mul a b) var =
       Symbolic.Add (Symbolic.Mul a (Symbolic.gradient b var))
                    (Symbolic.Mul (Symbolic.gradient a var) b)) ∧
  (∀ σ x y ox oy, x ≠ y → σ !! x = Some ox → σ !! y = Some oy →
     (Symbolic.value ox = VNum (PFloat 3) → Symbolic.value oy = VNum (PFloat 4) →
      derivatives_at σ x y =
        (λ q, Ok (VNum (PFloat q))) <$> [24; 10; 8; 6; 6; 0]%float) ∧
     (Symbolic.value ox = VNum (PInt 3) → Symbolic.value oy = VNum (PInt 4) →
      derivatives_at σ x y =
        (λ n, Ok (VNum (PInt n))) <$> [24; 10; 8; 6; 6; 0]%Z)) ∧
  (let '(x, y, _, σ) := Symbolic.cell48 in
   derivatives_at σ x y =
     (λ q, Ok (VNum (PFloat q))) <$> [24; 10; 8; 6; 6; 0]%float).
Proof.
  split_and!.
  - reflexivity.
  - intros x var. simpl. split_and!.
    + intros ->. rewrite decide_True; reflexivity.
    + intros H. rewrite decide_False; [reflexivity | exact H].
    + case_decide; split; congruence.
  - reflexivity.
  - reflexivity.
  - apply Symbolic_f_graph_gradients.
  - vm_compute. reflexivity.
Qed.

(** ** C3: reverse mode *)

Lemma Reverse_evaluate_caches n h v h' :
  Reverse.evaluate n h = (Ok v, h') → Reverse.get_value n h' = (Ok v, h').
Proof.
  destruct n as [c|x|x a b|x a b]; simpl.
  - intros [= <- <-]. reflexivity.
  - destruct (Reverse.vars h !! x) eqn:E; intros [= <- <-]. rewrite E. reflexivity.
  - intros H. apply Reverse_evaluate_op in H as (va & vb & h1 & h2 & _ & _ & _ & ->).
    simpl. rewrite lookup_insert_eq. reflexivity.
  - intros H. apply Reverse_evaluate_op in H as (va & vb & h1 & h2 & _ & _ & _ & ->).
    simpl. rewrite lookup_insert_eq. reflexivity.
Qed.

Lemma Reverse_backpropagate_Var x o g g' h :
  Reverse.vars h !! x = Some o → py_add (Reverse.gradient o) g = Ok g' →
  Reverse.backpropagate (Reverse.Var x) g h =
    (Ok tt,
     Reverse.new_heap
       (<[x := Reverse.new_VarObj (Reverse.value o) (Reverse.name o) g']>
          (Reverse.vars h))
       (Reverse.ops h)).
Proof.
  intros Hx Hg. simpl. unfold Reverse.add_gradient. rewrite Hx, Hg. reflexivity.
Qed.

Lemma Reverse_backpropagate_Mul x a b g h h' :
  Reverse.backpropagate (Reverse.Mul x a b) g h = (Ok tt, h') ↔
  ∃ vb ga h1 va gb,
    Reverse.get_value b h = (Ok vb, h) ∧ py_mul g vb = Ok ga ∧
    Reverse.backpropagate a ga h = (Ok tt, h1) ∧
    Reverse.get_value a h1 = (Ok va, h1) ∧ py_mul g va = Ok gb ∧
    Reverse.backpropagate b gb h1 = (Ok tt, h').
Proof.
  assert (Hget : ∀ n s r s', Reverse.get_value n s = (r, s') → s' = s).
  { intros n s r s'. unfold Reverse.get_value.
    destruct n; repeat case_match; congruence. }
  simpl. split.
  - intros H.
    apply M_bind_Ok in H as (vb & s1 & Hb & H).
    pose proof (Hget _ _ _ _ Hb) as ->.
    apply M_bind_Ok in H as (ga & s2 & Hga & H).
    unfold lift in Hga. injection Hga as Hga <-.
    apply M_bind_Ok in H as ([] & h1 & Ha & H).
    apply M_bind_Ok in H as (va & s3 & Hva & H).
    pose proof (Hget _ _ _ _ Hva) as ->.
    apply M_bind_Ok in H as (gb & s4 & Hgb & H).
    unfold lift in Hgb. injection Hgb as Hgb <-.
    eauto 12.
  - intros (vb & ga & h1 & va & gb & Hb & Hga & Ha & Hva & Hgb & H).
    apply M_bind_Ok. exists vb, h. split; [exact Hb|].
    apply M_bind_Ok. exists ga, h. unfold lift. rewrite Hga. split; [reflexivity|].
    apply M_bind_Ok. exists tt, h1. split; [exact Ha|].
    apply M_bind_Ok. exists va, h1. split; [exact Hva|].
    apply M_bind_Ok. exists gb, h1. rewrite Hgb. split; [reflexivity|].
    exact H.
Qed.

Lemma Reverse_backpropagate_shared id x o g gx g1 g2 h :
  Reverse.vars h !! x = Some o →
  py_mul g (Reverse.value o) = Ok gx →
  py_add (Reverse.gradient o) gx = Ok g1 → py_add g1 gx = Ok g2 →
  Reverse.backpropagate (Reverse.Mul id (Reverse.Var x) (Reverse.Var x)) g h =
    (Ok tt,
     Reverse.new_heap
       (<[x := Reverse.new_VarObj (Reverse.value o) (Reverse.name o) g2]>
          (Reverse.vars h))
       (Reverse.ops h)).
Proof.
  intros Hx Hgx Hg1 Hg2. simpl.
  unfold mbind, M_bind, lift, Reverse.add_gradient. simpl.
  rewrite Hx. simpl. rewrite Hgx, Hx, Hg1. simpl.
  rewrite lookup_insert_eq. simpl. rewrite Hgx. simpl.
  rewrite lookup_insert_eq. simpl. rewrite Hg2, insert_insert_eq. reflexivity.
Qed.

(** C3. In the reverse-mode variant [Const.backpropagate] does nothing,
    [Var.backpropagate(g)] adds [g] to the variable's [gradient],
    [Add.backpropagate(g)] passes [g] to both operands, and
    [Mul(a, b).backpropagate(g)] passes [g * b.value] to [a] and then
    [g * a.value] to [b], where [value] is what [evaluate] stored in the
    node; the two occurrences of a shared [x] in [x * x] both add into the
    one [gradient] of [x]. In cell 73 (x = 3, y = 4, a fresh [evaluate],
    then [backpropagate(1.0)]) the result is 42 and the gradients of x and
    y are 24.0 and 10.0. *)
Theorem C3_backpropagate_rules_and_values :
  (∀ v g h, Reverse.backpropagate (Reverse.Const v) g h = (Ok tt, h)) ∧
  (∀ x o g g' h,
     Reverse.vars h !! x = Some o → py_add (Reverse.gradient o) g = Ok g' →
     Reverse.backpropagate (Reverse.Var x) g h =
       (Ok tt,
        Reverse.new_heap
          (<[x := Reverse.new_VarObj (Reverse.value o) (Reverse.name o) g']>
             (Reverse.vars h))
          (Reverse.ops h))) ∧
  (∀ x a b g,
     Reverse.backpropagate (Reverse.Add x a b) g =
       (Reverse.backpropagate a g;; Reverse.backpropagate b g)) ∧
  (∀ x a b g h h',
     Reverse.backpropagate (Reverse.Mul x a b) g h = (Ok tt, h') ↔
     ∃ vb ga h1 va gb,
       Reverse.get_value b h = (Ok vb, h) ∧ py_mul g vb = Ok ga ∧
       Reverse.backpropagate a ga h = (Ok tt, h1) ∧
       Reverse.get_value a h1 = (Ok va, h1) ∧ py_mul g va = Ok gb ∧
       Reverse.backpropagate b gb h1 = (Ok tt, h')) ∧
  (∀ n h v h',
     Reverse.evaluate n h = (Ok v, h') →
     Reverse.get_value n h' = (Ok v, h')) ∧
  (∀ id x o g gx g1 g2 h,
     Reverse.vars h !! x = Some o →
     py_mul g (Reverse.value o) = Ok gx →
     py_add (Reverse.gradient o) gx = Ok g1 → py_add g1 gx = Ok g2 →
     Reverse.backpropagate (Reverse.Mul id (Reverse.Var x) (Reverse.Var x)) g h =
       (Ok tt,
        Reverse.new_heap
          (<[x := Reverse.new_VarObj (Reverse.value o) (Reverse.name o) g2]>
             (Reverse.vars h))
          (Reverse.ops h))) ∧
  Reverse.cell73_outputs =
    Ok (VNum (PInt 42), Some (VNum (PFloat 24)), Some (VNum (PFloat 10))).
Proof.
  split_and!.
  - reflexivity.
  - apply Reverse_backpropagate_Var.
  - reflexivity.
  - apply Reverse_backpropagate_Mul.
  - apply Reverse_evaluate_caches.
  - apply Reverse_backpropagate_shared.
  - vm_compute. reflexivity.
Qed.

(** ** Floating-point and number arithmetic *)

Lemma SFadd_comm p e x y : SFadd p e x y = SFadd p e y x.
Proof.
  destruct x as [sx|sx| |sx mx ex], y as [sy|sy| |sy my ey]; simpl;
    try reflexivity; try (destruct sx, sy; reflexivity).
  rewrite (Z.min_comm ex ey). f_equal. apply Z.add_comm.
Qed.

Lemma SFmul_comm p e x y : SFmul p e x y = SFmul p e y x.
Proof.
  destruct x as [sx|sx| |sx mx ex], y as [sy|sy| |sy my ey]; simpl;
    try reflexivity; try (destruct sx, sy; reflexivity).
  rewrite (xorb_comm sx sy), (Pos.mul_comm mx my), (Z.add_comm ex ey).
  reflexivity.
Qed.

Lemma float_add_comm x y : PrimFloat.add x y = PrimFloat.add y x.
Proof. apply Prim2SF_inj. rewrite !add_spec. apply SFadd_comm. Qed.

Lemma float_mul_comm x y : PrimFloat.mul x y = PrimFloat.mul y x.
Proof. apply Prim2SF_inj. rewrite !mul_spec. apply SFmul_comm. Qed.

Lemma int_to_float_Raise z e : int_to_float z = Raise e → e = OverflowError.
Proof. unfold int_to_float. case_match; congruence. Qed.

Lemma arith_Raise iop fop a b e : arith iop fop a b = Raise e → e = OverflowError.
Proof.
  destruct a as [x|x], b as [y|y]; simpl; try discriminate.
  - destruct (int_to_float x) eqn:E; simpl; [discriminate|].
    intros [= <-]. eapply int_to_float_Raise, E.
  - destruct (int_to_float y) eqn:E; simpl; [discriminate|].
    intros [= <-]. eapply int_to_float_Raise, E.
Qed.

Lemma arith_comm iop fop a b :
  (∀ x y, iop x y = iop y x) → (∀ x y, fop x y = fop y x) →
  arith iop fop a b = arith iop fop b a.
Proof.
  intros Hi Hf. destruct a as [x|x], b as [y|y]; simpl.
  - f_equal. f_equal. apply Hi.
  - destruct (int_to_float x) as [q|]; simpl; [|reflexivity].
    f_equal. f_equal. apply Hf.
  - destruct (int_to_float y) as [q|]; simpl; [|reflexivity].
    f_equal. f_equal. apply Hf.
  - f_equal. f_equal. apply Hf.
Qed.

Lemma num_add_comm a b : num_add a b = num_add b a.
Proof. apply arith_comm; [apply Z.add_comm | apply float_add_comm]. Qed.

Lemma num_mul_comm a b : num_mul a b = num_mul b a.
Proof. apply arith_comm; [apply Z.mul_comm | apply float_mul_comm]. Qed.

(** ** C4: dual numbers *)

Lemma DualNumber_mul_rule a1 b1 a2 b2 :
  DualNumber.__mul__ (new_DualNumber a1 b1) (VDual (new_DualNumber a2 b2)) =
  dual_mul_rule a1 b1 a2 b2.
Proof.
  unfold DualNumber.__mul__, dual_mul_rule. simpl.
  destruct (num_mul a1 a2) as [v|]; simpl; [|reflexivity].
  rewrite (num_mul_comm b1 a2).
  destruct (num_mul a2 b1) as [q|e1] eqn:Hq, (num_mul a1 b2) as [p|e2] eqn:Hp;
    simpl; try reflexivity.
  - by rewrite (num_add_comm q p).
  - apply arith_Raise in Hq, Hp. congruence.
Qed.

Lemma cell66_general σ x y ox oy dx dy :
  σ !! x = Some ox → σ !! y = Some oy →
  Symbolic.value ox = VDual dx → Symbolic.value oy = VDual dy →
  (dx = DualNumber.__init__ (PFloat 3) (Some (PFloat 1)) →
   dy = DualNumber.__init__ (PFloat 4) None →
   Symbolic.evaluate (Symbolic.f_graph x y) σ =
     Ok (VDual (new_DualNumber (PFloat 42) (PFloat 24)))) ∧
  (dx = DualNumber.__init__ (PFloat 3) None →
   dy = DualNumber.__init__ (PFloat 4) (Some (PFloat 1)) →
   Symbolic.evaluate (Symbolic.f_graph x y) σ =
     Ok (VDual (new_DualNumber (PFloat 42) (PFloat 10)))).
Proof.
  intros Hx Hy Hvx Hvy.
  rewrite (Symbolic_f_graph_evaluate σ x y ox oy Hx Hy), Hvx, Hvy.
  split; intros -> ->; vm_compute; reflexivity.
Qed.

(** C4. [DualNumber] addition and multiplication follow the dual-number
    algebra, (a1,b1)+(a2,b2) = (a1+a2, b1+b2) and
    (a1,b1)*(a2,b2) = (a1*a2, a1*b2 + a2*b1); the operators [+] and [*] use
    them, and a bare number k on either side of a dual number counts as
    (k, 0). Evaluating the graph of f with x = DualNumber(3.0, 1.0) and
    y = DualNumber(4.0) gives epsilon 24.0, and with x = DualNumber(3.0) and
    y = DualNumber(4.0, 1.0) gives epsilon 10.0 (the value is 42.0 in both):
    in every store, and in the notebook's cell 66. *)
Theorem C4_dual_number_algebra :
  (∀ a1 b1 a2 b2,
     DualNumber.__add__ (new_DualNumber a1 b1) (VDual (new_DualNumber a2 b2)) =
       dual_add_rule a1 b1 a2 b2 ∧
     DualNumber.__mul__ (new_DualNumber a1 b1) (VDual (new_DualNumber a2 b2)) =
       dual_mul_rule a1 b1 a2 b2) ∧
  (∀ d c,
     py_add (VDual d) c = VDual <$> DualNumber.__add__ d c ∧
     py_mul (VDual d) c = VDual <$> DualNumber.__mul__ d c) ∧
  (∀ k d,
     py_add (VNum k) (VDual d) = py_add (coerced k) (VDual d) ∧
     py_add (VDual d) (VNum k) = py_add (VDual d) (coerced k) ∧
     py_mul (VNum k) (VDual d) = py_mul (coerced k) (VDual d) ∧
     py_mul (VDual d) (VNum k) = py_mul (VDual d) (coerced k)) ∧
  (∀ σ x y ox oy dx dy,
     σ !! x = Some ox → σ !! y = Some oy →
     Symbolic.value ox = VDual dx → Symbolic.value oy = VDual dy →
     (dx = DualNumber.__init__ (PFloat 3) (Some (PFloat 1)) →
      dy = DualNumber.__init__ (PFloat 4) None →
      Symbolic.evaluate (Symbolic.f_graph x y) σ =
        Ok (VDual (new_DualNumber (PFloat 42) (PFloat 24)))) ∧
     (dx = DualNumber.__init__ (PFloat 3) None →
      dy = DualNumber.__init__ (PFloat 4) (Some (PFloat 1)) →
      Symbolic.evaluate (Symbolic.f_graph x y) σ =
        Ok (VDual (new_DualNumber (PFloat 42) (PFloat 10))))) ∧
  eps <$> (DualNumber.to_dual <$>
      cell66 (DualNumber.__init__ (PFloat 3) (Some (PFloat 1)))
             (DualNumber.__init__ (PFloat 4) None)) = Ok (PFloat 24) ∧
  eps <$> (DualNumber.to_dual <$>
      cell66 (DualNumber.__init__ (PFloat 3) None)
             (DualNumber.__init__ (PFloat 4) (Some (PFloat 1)))) = Ok (PFloat 10).
Proof.
  split_and!.
  - intros. split; [reflexivity | apply DualNumber_mul_rule].
  - intros d c. split; reflexivity.
  - intros k d. split_and!; reflexivity.
  - apply cell66_general.
  - vm_compute. reflexivity.
  - vm_compute. reflexivity.
Qed.

(** ** C5 and C10: finite differences *)

(** Unfolding the monadic operations of [gradients]. *)
Ltac run_M :=
  cbv beta iota delta
    [mbind M_bind mret M_ret copy_list read_list new_list iadd_item call lift
     modify].

(** One iteration of the loop, when the whole loop succeeds. *)
Lemma for_idx_cons_Ok {St} (func : list pyvalue → M St pyvalue) l ε base idx range acc w res w' :
  for_idx func l ε base (idx :: range) acc w = (Ok res, w') →
  ∃ xs x x' t s diff d,
    lists w !! l = Some xs ∧ xs !! idx = Some x ∧ py_add x ε = Ok x' ∧
    func (<[idx := x']> xs) (user w) = (Ok t, s) ∧
    py_sub t base = Ok diff ∧ py_truediv diff ε = Ok d ∧
    for_idx func l ε base range (acc ++ [d])
      (new_world (<[fresh (dom (lists w)) := <[idx := x']> xs]> (lists w)) s)
    = (Ok res, w').
Proof.
  intros H. simpl in H.
  apply M_bind_Ok in H as (t' & w1 & Hcopy & H).
  apply M_bind_Ok in Hcopy as (xs & w0 & Hread & Hnew).
  unfold read_list in Hread. destruct (lists w !! l) as [xs0|] eqn:Hl; [|discriminate].
  injection Hread as <- <-. injection Hnew as <- <-.
  apply M_bind_Ok in H as ([] & w2 & Hiadd & H).
  apply M_bind_Ok in Hiadd as (xs' & w1' & Hread & Hiadd).
  unfold read_list in Hread. simpl in Hread. rewrite lookup_insert_eq in Hread.
  injection Hread as <- <-.
  destruct (xs0 !! idx) as [x|] eqn:Hidx; [|discriminate].
  apply M_bind_Ok in Hiadd as (x' & w1' & Hadd & Hmod).
  unfold lift in Hadd. injection Hadd as Hadd <-.
  injection Hmod as <-.
  apply M_bind_Ok in H as (args & w2' & Hread & H).
  unfold read_list in Hread. simpl in Hread. rewrite lookup_insert_eq in Hread.
  injection Hread as <- <-.
  apply M_bind_Ok in H as (t & w3 & Hcall & H).
  unfold call in Hcall. simpl in Hcall.
  destruct (func (<[idx:=x']> xs0) (user w)) as [r s] eqn:Hf.
  injection Hcall as -> <-.
  apply M_bind_Ok in H as (diff & w4 & Hsub & H).
  unfold lift in Hsub. injection Hsub as Hsub <-.
  apply M_bind_Ok in H as (d & w4 & Hdiv & H).
  unfold lift in Hdiv. injection Hdiv as Hdiv <-.
  rewrite insert_insert_eq in H.
  exists xs0, x, x', t, s, diff, d. split_and!; done.
Qed.


Lemma for_idx_Ok {St} (func : list pyvalue → M St pyvalue) l ε base point m : ∀ k acc w res w',
  lists w !! l = Some point → k + m = length point →
  for_idx func l ε base (seq k m) acc w = (Ok res, w') →
  ∃ perturbed ts ds,
    res = acc ++ ds ∧
    Forall2 (λ x x', py_add x ε = Ok x') (take m (drop k point)) perturbed ∧
    run_calls func (imap (λ j x', <[k + j := x']> point) perturbed) (user w)
      = (Ok <$> ts, user w') ∧
    Forall2 (quotient ε base) ts ds ∧
    lists w' !! l = Some point.
Proof.
  induction m as [|m IH]; intros k acc w res w' Hl Hk H.
  - simpl in H. injection H as <- <-.
    exists [], [], []. rewrite app_nil_r, take_0. split_and!; try done; constructor.
  - rewrite <- cons_seq in H.
    apply for_idx_cons_Ok in H
      as (xs & x & x' & t & s & diff & d & Hl' & Hx & Hadd & Hf & Hsub & Hdiv & H).
    rewrite Hl in Hl'. injection Hl' as <-.
    apply IH in H as (perturbed & ts & ds & -> & Hp & Hrun & Hq & Hl'); cycle 1.
    { simpl. rewrite lookup_insert_ne; [exact Hl|].
      intros <-. apply (is_fresh (dom (lists w))), elem_of_dom. eauto. }
    { lia. }
    exists (x' :: perturbed), (t :: ts), (d :: ds).
    split_and!.
    + by rewrite <- app_assoc.
    + rewrite (drop_S _ _ _ Hx). simpl. constructor; [exact Hadd|exact Hp].
    + simpl. rewrite Nat.add_0_r, Hf. simpl in Hrun.
      erewrite imap_ext; [rewrite Hrun; reflexivity|].
      intros j y _. simpl. f_equal. lia.
    + constructor; [|exact Hq]. exists diff. done.
    + exact Hl'.
Qed.

Lemma gradients_Ok {St} (func : list pyvalue → M St pyvalue) l eps w point res w' :
  lists w !! l = Some point →
  gradients func l eps w = (Ok res, w') →
  ∃ base perturbed ts,
    Forall2 (λ x x', py_add x (default default_eps eps) = Ok x') point perturbed ∧
    run_calls func (point :: perturbed_points point perturbed) (user w)
      = (Ok base :: (Ok <$> ts), user w') ∧
    Forall2 (quotient (default default_eps eps) base) ts res.
Proof.
  intros Hl H. unfold gradients in H.
  apply M_bind_Ok in H as (args & w0 & Hread & H).
  unfold read_list in Hread. rewrite Hl in Hread. injection Hread as <- <-.
  apply M_bind_Ok in H as (base & w1 & Hcall & H).
  unfold call in Hcall. destruct (func point (user w)) as [r s] eqn:Hf.
  injection Hcall as -> <-.
  apply M_bind_Ok in H as (xs & w2 & Hread & H).
  unfold read_list in Hread. simpl in Hread. rewrite Hl in Hread.
  injection Hread as <- <-.
  apply (for_idx_Ok _ _ _ _ point) in H
    as (perturbed & ts & ds & -> & Hp & Hrun & Hq & _); [|exact Hl|reflexivity].
  rewrite drop_0, firstn_all in Hp.
  exists base, perturbed, ts. split_and!; [exact Hp| |exact Hq].
  simpl. rewrite Hf. simpl in Hrun. unfold perturbed_points.
  rewrite Hrun. reflexivity.
Qed.


Lemma run_calls_counted {St} (func : list pyvalue → M St pyvalue) argss s n :
  run_calls (counted func) argss (s, n) =
  (fst (run_calls func argss s), (snd (run_calls func argss s), n + length argss)).
Proof.
  revert s n. induction argss as [|args argss IH]; intros s n; simpl.
  - by rewrite Nat.add_0_r.
  - destruct (func args s) as [r s1]. rewrite IH.
    destruct (run_calls func argss s1) as [rs s2]. simpl.
    do 2 f_equal. lia.
Qed.

Lemma gradients_call_count {St} (func : list pyvalue → M St pyvalue) l eps (w w' : world (St * nat)) point res :
  lists w !! l = Some point →
  gradients (counted func) l eps w = (Ok res, w') →
  snd (user w') = snd (user w) + (length point + 1).
Proof.
  intros Hl H.
  apply (gradients_Ok _ _ _ _ point) in H as (base & perturbed & ts & Hp & Hrun & _);
    [|exact Hl].
  destruct (user w) as [s n], (user w') as [s' n'].
  rewrite run_calls_counted in Hrun.
  injection Hrun as _ _ <-. simpl. unfold perturbed_points.
  rewrite length_imap, <- (Forall2_length _ _ _ Hp). lia.
Qed.

(** One iteration of the loop, forwards. *)
Lemma for_idx_cons {St} (func : list pyvalue → M St pyvalue) l ε base idx range acc w xs x x' t s diff d :
  lists w !! l = Some xs → xs !! idx = Some x → py_add x ε = Ok x' →
  func (<[idx := x']> xs) (user w) = (Ok t, s) →
  py_sub t base = Ok diff → py_truediv diff ε = Ok d →
  for_idx func l ε base (idx :: range) acc w =
  for_idx func l ε base range (acc ++ [d])
    (new_world (<[fresh (dom (lists w)) := <[idx := x']> xs]> (lists w)) s).
Proof.
  intros Hl Hx Hadd Hf Hsub Hdiv. cbn [for_idx]. run_M.
  rewrite Hl. cbn [lists user]. rewrite lookup_insert_eq, Hx. run_M.
  rewrite Hadd. cbn [lists user].
  rewrite lookup_insert_eq. cbn [lists user].
  rewrite Hf, Hsub, Hdiv, insert_insert_eq. reflexivity.
Qed.

Lemma for_idx_total {St} (func : list pyvalue → M St pyvalue) l ε base point m : ∀ k acc w,
  (∀ args s, ∃ q s', func args s = (Ok (VNum (PFloat q)), s')) →
  Forall is_float point → is_float ε → is_float base →
  py_truediv ε ε ≠ Raise ZeroDivisionError →
  lists w !! l = Some point → k + m = length point →
  ∃ res w', for_idx func l ε base (seq k m) acc w = (Ok res, w').
Proof.
  induction m as [|m IH]; intros k acc w Hf Hpoint [e ->] [b ->] He Hl Hk.
  - simpl. eauto.
  - destruct (lookup_lt_is_Some_2 point k) as [x Hx]; [lia|].
    destruct (proj1 (Forall_lookup _ _) Hpoint k x Hx) as [q ->].
    destruct (Hf (<[k := VNum (PFloat (PrimFloat.add q e))]> point) (user w))
      as (t & s & Ht).
    assert (Hdiv : ∀ n, py_truediv (VNum (PFloat n)) (VNum (PFloat e)) =
                        Ok (VNum (PFloat (PrimFloat.div n e)))).
    { intros n. simpl in *. destruct (PrimFloat.eqb e PrimFloat.zero); [done|].
      reflexivity. }
    rewrite <- cons_seq.
    erewrite for_idx_cons; [|exact Hl|exact Hx|reflexivity|exact Ht|reflexivity|apply Hdiv].
    apply IH; try done; [by eexists|by eexists| |lia].
    simpl. rewrite lookup_insert_ne; [exact Hl|].
    intros <-. apply (is_fresh (dom (lists w))), elem_of_dom. eauto.
Qed.

Lemma gradients_total {St} (func : list pyvalue → M St pyvalue) l eps w point :
  (∀ args s, ∃ q s', func args s = (Ok (VNum (PFloat q)), s')) →
  Forall is_float point → is_float (default default_eps eps) →
  py_truediv (default default_eps eps) (default default_eps eps)
    ≠ Raise ZeroDivisionError →
  lists w !! l = Some point →
  ∃ res w', gradients func l eps w = (Ok res, w').
Proof.
  intros Hf Hpoint Heps He Hl. unfold gradients.
  destruct (Hf point (user w)) as (b & s & Hb).
  run_M. rewrite Hl, Hb. cbn [lists user]. rewrite Hl.
  apply (for_idx_total _ _ _ _ point); try done. by eexists.
Qed.

(** Frame: no list that exists when the loop starts is written. *)
Lemma for_idx_frame {St} (func : list pyvalue → M St pyvalue) l ε base range : ∀ acc w l0 xs,
  lists w !! l0 = Some xs →
  lists (snd (for_idx func l ε base range acc w)) !! l0 = Some xs.
Proof.
  induction range as [|idx range IH]; intros acc w l0 xs Hl0; [exact Hl0|].
  assert (Hfresh : fresh (dom (lists w)) ≠ l0).
  { intros <-. apply (is_fresh (dom (lists w))), elem_of_dom. eauto. }
  cbn [for_idx]. run_M.
  destruct (lists w !! l) as [ys|]; cbn [lists user snd]; [|exact Hl0].
  rewrite lookup_insert_eq.
  destruct (ys !! idx) as [y|]; run_M; cbn [lists user snd];
    [|by rewrite lookup_insert_ne].
  destruct (py_add y ε) as [y'|]; cbn [lists user snd];
    [|by rewrite lookup_insert_ne].
  rewrite lookup_insert_eq. cbn [lists user]. rewrite insert_insert_eq.
  destruct (func (<[idx:=y']> ys) (user w)) as [[t|e] s]; cbn [lists user snd];
    [|by rewrite lookup_insert_ne].
  destruct (py_sub t base) as [diff|]; cbn [lists user snd];
    [|by rewrite lookup_insert_ne].
  destruct (py_truediv diff ε) as [d|]; cbn [lists user snd];
    [|by rewrite lookup_insert_ne].
  apply IH. cbn [lists]. by rewrite lookup_insert_ne.
Qed.

Lemma gradients_frame {St} (func : list pyvalue → M St pyvalue) l eps w l0 xs :
  lists w !! l0 = Some xs →
  lists (snd (gradients func l eps w)) !! l0 = Some xs.
Proof.
  intros Hl0. unfold gradients.
  run_M.
  destruct (lists w !! l) as [point|] eqn:Hl; [|exact Hl0].
  destruct (func point (user w)) as [[b|e] s]; cbn [lists user snd];
    [|exact Hl0].
  rewrite Hl. by apply for_idx_frame.
Qed.



Lemma run_calls_pure {St} (g : list pyvalue → result pyvalue) argss (s : St) :
  run_calls (pure_func g) argss s = (g <$> argss, s).
Proof.
  induction argss as [|args argss IH]; [reflexivity|].
  cbn [run_calls]. change (pure_func g args s) with (g args, s).
  cbv beta iota. rewrite IH. reflexivity.
Qed.

Lemma gradients_pure_entries {St} (g : list pyvalue → result pyvalue) l eps
    (w w' : world St) point res i d :
  lists w !! l = Some point →
  gradients (pure_func g) l eps w = (Ok res, w') →
  res !! i = Some d →
  ∃ x x' tweaked base,
    point !! i = Some x ∧ py_add x (default default_eps eps) = Ok x' ∧
    g (<[i := x']> point) = Ok tweaked ∧ g point = Ok base ∧
    quotient (default default_eps eps) base tweaked d.
Proof.
  intros Hl H Hd.
  apply (gradients_Ok _ _ _ _ point) in H as (base & perturbed & ts & Hp & Hrun & Hq);
    [|exact Hl].
  rewrite run_calls_pure, fmap_cons in Hrun. injection Hrun as Hbase Hts _.
  destruct (Forall2_lookup_r _ _ _ _ _ Hq Hd) as (t & Ht & Hqt).
  assert (Hi : (g <$> perturbed_points point perturbed) !! i = Some (Ok t)).
  { rewrite Hts, list_lookup_fmap, Ht. reflexivity. }
  unfold perturbed_points in Hi.
  rewrite list_lookup_fmap, list_lookup_imap in Hi.
  destruct (perturbed !! i) as [x'|] eqn:Hx'; [|discriminate].
  injection Hi as Hi.
  destruct (Forall2_lookup_r _ _ _ _ _ Hp Hx') as (x & Hx & Hadd).
  exists x, x', t, base. done.
Qed.

(** C5. [gradients(func, vars_list, eps)], when it returns, returns a list
    with one entry per dimension of the point; it has called [func] on the
    point and then on the point with dimension 0, 1, ... increased by [eps],
    in this order and no other time, which is n + 1 calls for n dimensions;
    entry i is (what the call for dimension i returned, minus what the base
    call returned) divided by [eps]. For a function without state, entry i
    is (g(point with dimension i increased by eps) - g(point)) / eps. The
    default [eps] is the float 0.0001. The call does return when [func]
    returns floats, the point and [eps] are floats and [eps] is not zero.
    Cell 20, [gradients(f, [3, 4])], gives
    [24.000400000048216, 10.000000000047748]. *)
Theorem C5_gradients_finite_differences :
  (∀ St (func : list pyvalue → M St pyvalue) l eps (w w' : world St) point res,
     lists w !! l = Some point →
     gradients func l eps w = (Ok res, w') →
     length res = length point ∧
     ∃ base perturbed tweaked,
       Forall2 (λ x x', py_add x (default default_eps eps) = Ok x')
         point perturbed ∧
       run_calls func (point :: perturbed_points point perturbed) (user w)
         = (Ok base :: (Ok <$> tweaked), user w') ∧
       Forall2 (quotient (default default_eps eps) base) tweaked res) ∧
  (∀ St (func : list pyvalue → M St pyvalue) l eps (w w' : world (St * nat))
     point res,
     lists w !! l = Some point →
     gradients (counted func) l eps w = (Ok res, w') →
     snd (user w') = snd (user w) + (length point + 1)) ∧
  (∀ St (g : list pyvalue → result pyvalue) l eps (w w' : world St) point res
     i d,
     lists w !! l = Some point →
     gradients (pure_func g) l eps w = (Ok res, w') →
     res !! i = Some d →
     ∃ x x' tweaked base,
       point !! i = Some x ∧ py_add x (default default_eps eps) = Ok x' ∧
       g (<[i := x']> point) = Ok tweaked ∧ g point = Ok base ∧
       quotient (default default_eps eps) base tweaked d) ∧
  (∀ St (func : list pyvalue → M St pyvalue) l,
     gradients func l None =
     gradients func l (Some (VNum (PFloat 0x1.a36e2eb1c432dp-14)))) ∧
  (∀ St (func : list pyvalue → M St pyvalue) l eps (w : world St) point,
     (∀ args s, ∃ q s', func args s = (Ok (VNum (PFloat q)), s')) →
     Forall is_float point → is_float (default default_eps eps) →
     py_truediv (default default_eps eps) (default default_eps eps)
       ≠ Raise ZeroDivisionError →
     lists w !! l = Some point →
     ∃ res w', gradients func l eps w = (Ok res, w')) ∧
  fst cell20 =
    Ok [VNum (PFloat 0x1.8001a36e3202p+4); VNum (PFloat 0x1.40000000069p+3)].
Proof.
  split_and!.
  - intros St func l eps w w' point res Hl H.
    destruct (gradients_Ok func l eps w point res w' Hl H)
      as (base & perturbed & ts & Hp & Hrun & Hq).
    split; [|by exists base, perturbed, ts].
    rewrite <- (Forall2_length _ _ _ Hq).
    apply (f_equal fst) in Hrun. simpl in Hrun.
    destruct (func point (user w)) as [r s].
    destruct (run_calls func _ s) as [rs s2] eqn:Hrs. simpl in Hrun.
    injection Hrun as _ Hrs'.
    apply (f_equal length) in Hrs'. rewrite length_fmap in Hrs'.
    rewrite <- Hrs', (Forall2_length _ _ _ Hp).
    clear -Hrs. unfold perturbed_points in Hrs.
    assert (Hlen : ∀ argss s0 rs0 s1,
      run_calls func argss s0 = (rs0, s1) → length rs0 = length argss).
    { induction argss as [|a argss IH]; simpl; intros s0 rs0 s1.
      - by intros [= <- _].
      - destruct (func a s0) as [r1 s3].
        destruct (run_calls func argss s3) as [rs1 s4] eqn:E.
        intros [= <- _]. simpl. f_equal. eapply IH, E. }
    rewrite (Hlen _ _ _ _ Hrs), length_imap. reflexivity.
  - intros St func l eps w w' point res. apply gradients_call_count.
  - intros St g l eps w w' point res i d. apply gradients_pure_entries.
  - reflexivity.
  - intros St func l eps w point. apply gradients_total.
  - vm_compute. reflexivity.
Qed.

Lemma gradients_missing_list {St} (func : list pyvalue → M St pyvalue) l eps
    (w : world St) :
  lists w !! l = None → gradients func l eps w = (Raise NameError, w).
Proof. intros Hl. unfold gradients. run_M. by rewrite Hl. Qed.

(** ** C10: what [gradients] writes *)

Ltac run_A :=
  cbv beta iota delta
    [mbind M_bind mret M_ret copy_list read_list new_list iadd_item lift
     modify].

(** On a function without access to the lists the two definitions of
    [gradients] are one. *)
Lemma Aliased_for_idx_call {St} (func : list pyvalue → M St pyvalue) l ε base
    range : ∀ acc w,
  Aliased.for_idx (call func) l ε base range acc w
  = for_idx func l ε base range acc w.
Proof.
  induction range as [|idx range IH]; intros acc w; [reflexivity|].
  cbn [Aliased.for_idx for_idx]. run_A.
  destruct (lists w !! l) as [ys|]; [|reflexivity]. cbn [lists user].
  rewrite lookup_insert_eq.
  destruct (ys !! idx) as [y|]; [|reflexivity]. run_A.
  destruct (py_add y ε) as [y'|]; [|reflexivity]. cbn [lists user].
  rewrite lookup_insert_eq.
  destruct (call func (<[idx:=y']> ys) _) as [[t|e] w1]; [|reflexivity].
  destruct (py_sub t base) as [diff|]; [|reflexivity].
  destruct (py_truediv diff ε) as [d|]; [|reflexivity].
  apply IH.
Qed.

Lemma Aliased_gradients_call {St} (func : list pyvalue → M St pyvalue) l eps
    (w : world St) :
  Aliased.gradients (call func) l eps w = gradients func l eps w.
Proof.
  unfold Aliased.gradients, gradients. run_A.
  destruct (lists w !! l) as [point|]; [|reflexivity].
  destruct (call func point w) as [[b|e] w1]; [|reflexivity].
  destruct (lists w1 !! l) as [xs|]; [|reflexivity].
  apply Aliased_for_idx_call.
Qed.

(** Frame: a list that exists when the loop starts and that [func] does
    not write is not written. *)
Lemma Aliased_for_idx_frame {St} (func : list pyvalue → M (world St) pyvalue)
    l0 xs :
  (∀ args w1, lists w1 !! l0 = Some xs →
     lists (snd (func args w1)) !! l0 = Some xs) →
  ∀ l ε base range acc w,
    lists w !! l0 = Some xs →
    lists (snd (Aliased.for_idx func l ε base range acc w)) !! l0 = Some xs.
Proof.
  intros Hf l ε base range.
  induction range as [|idx range IH]; intros acc w Hl0; [exact Hl0|].
  assert (Hfresh : fresh (dom (lists w)) ≠ l0).
  { intros <-. apply (is_fresh (dom (lists w))), elem_of_dom. eauto. }
  cbn [Aliased.for_idx]. run_A.
  destruct (lists w !! l) as [ys|]; cbn [lists user snd]; [|exact Hl0].
  rewrite lookup_insert_eq.
  destruct (ys !! idx) as [y|]; run_A; cbn [lists user snd];
    [|by rewrite lookup_insert_ne].
  destruct (py_add y ε) as [y'|]; cbn [lists user snd];
    [|by rewrite lookup_insert_ne].
  rewrite lookup_insert_eq. cbn [lists user]. rewrite insert_insert_eq.
  match goal with |- context [func ?a ?w1] =>
    pose proof (Hf a w1) as Hw; destruct (func a w1) as [[t|e] w2]
  end; cbn [snd] in Hw; cbn [lists user snd];
    [|apply Hw; cbn [lists]; by rewrite lookup_insert_ne].
  assert (Hw2 : lists w2 !! l0 = Some xs)
    by (apply Hw; cbn [lists]; by rewrite lookup_insert_ne).
  destruct (py_sub t base) as [diff|]; cbn [lists user snd]; [|exact Hw2].
  destruct (py_truediv diff ε) as [d|]; cbn [lists user snd]; [|exact Hw2].
  by apply IH.
Qed.

(** C10, as stated, fails: "for every function f" includes a function that
    holds a reference to the list it is differentiated on. With
    [def g(x, y): held[0] = 99; return x + y] and [held] the list [[3, 4]],
    [gradients(g, held)] returns, and the list holds [[99, 4]] afterwards. *)
Lemma C10_function_writing_its_input :
  lists cell20_world !! 1%positive = Some [VNum (PInt 3); VNum (PInt 4)] ∧
  (∃ res,
     fst (Aliased.gradients (writes_held_list 1%positive) 1%positive None
            cell20_world) = Ok res) ∧
  lists (snd (Aliased.gradients (writes_held_list 1%positive) 1%positive None
                cell20_world)) !! 1%positive
  = Some [VNum (PInt 99); VNum (PInt 4)].
Proof.
  split; [vm_compute; reflexivity|]. split.
  - eexists. vm_compute. reflexivity.
  - vm_compute. reflexivity.
Qed.

(** C10, amended. [gradients] itself writes only the copies it makes with
    [vars_list[:]]: a list that exists when [gradients] is called and that
    [func] leaves as it is on every call, the list passed as [vars_list] in
    particular, holds the same values after the call, whatever [eps] is and
    whether the call returns or raises. A function without access to the list
    (every [call func]) is such a function. *)
Theorem C10_gradients_writes_only_copies {St}
    (func : list pyvalue → M (world St) pyvalue) vars_list eps (w : world St)
    l xs :
  lists w !! l = Some xs →
  (∀ args w1, lists w1 !! l = Some xs →
     lists (snd (func args w1)) !! l = Some xs) →
  lists (snd (Aliased.gradients func vars_list eps w)) !! l = Some xs.
Proof.
  intros Hl Hf. unfold Aliased.gradients. run_A.
  destruct (lists w !! vars_list) as [point|] eqn:Hv; [|exact Hl].
  pose proof (Hf point w Hl) as Hw.
  destruct (func point w) as [[b|e] w1]; cbn [snd] in Hw; [|exact Hw].
  destruct (lists w1 !! vars_list) as [ys|]; [|exact Hw].
  by apply Aliased_for_idx_frame.
Qed.

Lemma writes_held_list_frame {St} held l (xs : list pyvalue) args
    (w : world St) :
  held ≠ l → lists w !! l = Some xs →
  lists (snd (writes_held_list held args w)) !! l = Some xs.
Proof.
  intros Hne Hl. unfold writes_held_list, set_item.
  destruct args as [|x [|y [|? ?]]]; try exact Hl.
  cbv beta iota delta [mbind M_bind mret M_ret read_list lift modify].
  destruct (lists w !! held) as [ys|]; [|exact Hl].
  destruct (ys !! 0) as [y0|]; [|exact Hl].
  destruct (py_add x y); cbn [snd lists]; by rewrite lookup_insert_ne.
Qed.

Lemma C10_gradients_writes_only_copies_witness :
  lists two_lists_world !! 1%positive
    = Some [VNum (PInt 3); VNum (PInt 4)] ∧
  lists (snd (Aliased.gradients (writes_held_list 2%positive) 1%positive None
                two_lists_world)) !! 2%positive
    = Some [VNum (PInt 99)] ∧
  lists (snd (Aliased.gradients (writes_held_list 2%positive) 1%positive None
                two_lists_world)) !! 1%positive
    = Some [VNum (PInt 3); VNum (PInt 4)].
Proof.
  assert (Hl : lists two_lists_world !! 1%positive
               = Some [VNum (PInt 3); VNum (PInt 4)])
    by (vm_compute; reflexivity).
  split; [exact Hl|]. split; [vm_compute; reflexivity|].
  apply (C10_gradients_writes_only_copies (writes_held_list 2%positive)
           1%positive None two_lists_world 1%positive _ Hl).
  intros args w1. by apply writes_held_list_frame.
Defined.

(** ** C6: renderings *)

Lemma Symbolic_str_Add str a b σ s :
  Symbolic.__str__ str (Symbolic.Add a b) σ = Ok s ↔
  ∃ sa sb, Symbolic.__str__ str a σ = Ok sa ∧ Symbolic.__str__ str b σ = Ok sb ∧
           s = sa +:+ " + " +:+ sb.
Proof.
  simpl. rewrite bind_Ok. setoid_rewrite bind_Ok. split.
  - intros (sa & Ha & sb & Hb & [= <-]). eauto.
  - intros (sa & sb & Ha & Hb & ->). eauto.
Qed.

Lemma Symbolic_str_Mul str a b σ s :
  Symbolic.__str__ str (Symbolic.Mul a b) σ = Ok s ↔
  ∃ sa sb, Symbolic.__str__ str a σ = Ok sa ∧ Symbolic.__str__ str b σ = Ok sb ∧
           s = "(" +:+ sa +:+ ") * (" +:+ sb +:+ ")".
Proof.
  simpl. rewrite bind_Ok. setoid_rewrite bind_Ok. split.
  - intros (sa & Ha & sb & Hb & [= <-]). eauto.
  - intros (sa & sb & Ha & Hb & ->). eauto.
Qed.

Lemma Reverse_str_Add str x a b h s :
  Reverse.__str__ str (Reverse.Add x a b) h = Ok s ↔
  ∃ sa sb, Reverse.__str__ str a h = Ok sa ∧ Reverse.__str__ str b h = Ok sb ∧
           s = sa +:+ " + " +:+ sb.
Proof.
  simpl. rewrite bind_Ok. setoid_rewrite bind_Ok. split.
  - intros (sa & Ha & sb & Hb & [= <-]). eauto.
  - intros (sa & sb & Ha & Hb & ->). eauto.
Qed.

Lemma Reverse_str_Mul str x a b h s :
  Reverse.__str__ str (Reverse.Mul x a b) h = Ok s ↔
  ∃ sa sb, Reverse.__str__ str a h = Ok sa ∧ Reverse.__str__ str b h = Ok sb ∧
           s = "(" +:+ sa +:+ ") * (" +:+ sb +:+ ")".
Proof.
  simpl. rewrite bind_Ok. setoid_rewrite bind_Ok. split.
  - intros (sa & Ha & sb & Hb & [= <-]). eauto.
  - intros (sa & sb & Ha & Hb & ->). eauto.
Qed.

Lemma wraps_operands_Mul sa sb :
  wraps_operands ("(" +:+ sa +:+ ") * (" +:+ sb +:+ ")") sa sb.
Proof.
  exists " * ". reflexivity.
Qed.

(** C6, as stated, fails: the rendering of [Add(x, y)] is [x + y], which
    does not wrap its operands in parentheses, and the two groupings
    [Add(Add(x, y), x)] and [Add(x, Add(y, x))] have the same rendering
    [x + y + x]. *)
Lemma C6_Add_rendering_has_no_parentheses :
  let '(x, y, σ) := two_vars in
  let vx := Symbolic.Var x in
  let vy := Symbolic.Var y in
  (∀ str, Symbolic.__str__ str vx σ = Ok "x" ∧
          Symbolic.__str__ str vy σ = Ok "y" ∧
          Symbolic.__str__ str (Symbolic.Add vx vy) σ = Ok "x + y" ∧
          Symbolic.__str__ str (Symbolic.Add (Symbolic.Add vx vy) vx) σ
            = Ok "x + y + x" ∧
          Symbolic.__str__ str (Symbolic.Add vx (Symbolic.Add vy vx)) σ
            = Ok "x + y + x") ∧
  ¬ wraps_operands "x + y" "x" "y".
Proof.
  vm_compute. split.
  - intros str. split_and!; reflexivity.
  - intros [op H]. discriminate H.
Qed.

(** C6, amended. The rendering is infix and parenthesized by [Mul] only: a
    [Const] renders as [str(value)], a [Var] as its name, [Mul(a, b)] as
    [(a) * (b)], wrapping both operands in parentheses, and [Add(a, b)] as
    [a + b] with the operands' renderings as they are; in both variants of
    the graph. Cell 74 prints [((x) * (x)) * (y) + y + 2]. *)
Theorem C6_rendering_rules :
  (∀ str v σ, Symbolic.__str__ str (Symbolic.Const v) σ = Ok (str v)) ∧
  (∀ str x o σ, σ !! x = Some o →
     Symbolic.__str__ str (Symbolic.Var x) σ = Ok (Symbolic.name o)) ∧
  (∀ str a b σ s,
     Symbolic.__str__ str (Symbolic.Add a b) σ = Ok s ↔
     ∃ sa sb, Symbolic.__str__ str a σ = Ok sa ∧
              Symbolic.__str__ str b σ = Ok sb ∧ s = sa +:+ " + " +:+ sb) ∧
  (∀ str a b σ s,
     Symbolic.__str__ str (Symbolic.Mul a b) σ = Ok s ↔
     ∃ sa sb, Symbolic.__str__ str a σ = Ok sa ∧
              Symbolic.__str__ str b σ = Ok sb ∧
              s = "(" +:+ sa +:+ ") * (" +:+ sb +:+ ")") ∧
  (∀ str v h, Reverse.__str__ str (Reverse.Const v) h = Ok (str v)) ∧
  (∀ str x o h, Reverse.vars h !! x = Some o →
     Reverse.__str__ str (Reverse.Var x) h = Ok (Reverse.name o)) ∧
  (∀ str x a b h s,
     Reverse.__str__ str (Reverse.Add x a b) h = Ok s ↔
     ∃ sa sb, Reverse.__str__ str a h = Ok sa ∧
              Reverse.__str__ str b h = Ok sb ∧ s = sa +:+ " + " +:+ sb) ∧
  (∀ str x a b h s,
     Reverse.__str__ str (Reverse.Mul x a b) h = Ok s ↔
     ∃ sa sb, Reverse.__str__ str a h = Ok sa ∧
              Reverse.__str__ str b h = Ok sb ∧
              s = "(" +:+ sa +:+ ") * (" +:+ sb +:+ ")") ∧
  (∀ sa sb, wraps_operands ("(" +:+ sa +:+ ") * (" +:+ sb +:+ ")") sa sb) ∧
  (∀ other, Reverse.cell74 (py_str other) = Ok "((x) * (x)) * (y) + y + 2").
Proof.
  split_and!.
  - reflexivity.
  - intros str x o σ H. simpl. by rewrite H.
  - apply Symbolic_str_Add.
  - apply Symbolic_str_Mul.
  - reflexivity.
  - intros str x o h H. simpl. by rewrite H.
  - apply Reverse_str_Add.
  - apply Reverse_str_Mul.
  - apply wraps_operands_Mul.
  - intros other. vm_compute. reflexivity.
Qed.

(** ** C9: gradient accumulators *)

Lemma int_to_float_0 : int_to_float 0 = Ok PrimFloat.zero.
Proof. vm_compute. reflexivity. Qed.

Lemma float_zero_add x :
  PrimFloat.add PrimFloat.zero x = x ∨
  PrimFloat.eqb (PrimFloat.add PrimFloat.zero x) x = true.
Proof.
  destruct (Prim2SF x) as [[]| | |sx mx ex] eqn:E.
  - right. rewrite FloatAxioms.eqb_spec, add_spec, E. reflexivity.
  - left. apply Prim2SF_inj. rewrite add_spec, E. reflexivity.
  - left. apply Prim2SF_inj. rewrite add_spec, E. reflexivity.
  - left. apply Prim2SF_inj. rewrite add_spec, E. reflexivity.
  - left. apply Prim2SF_inj. rewrite add_spec, E. reflexivity.
Qed.

Lemma zero_plus_seed (seed : num) :
  ∃ acc, py_add (VNum (PInt 0)) (VNum seed) = Ok (VNum acc) ∧
         same_number acc seed.
Proof.
  destruct seed as [z|q].
  - exists (PInt z). split; [reflexivity | by left].
  - exists (PFloat (PrimFloat.add PrimFloat.zero q)).
    split.
    + unfold py_add, num_add, arith, to_float. rewrite int_to_float_0.
      reflexivity.
    + destruct (float_zero_add q) as [->|H]; [by left | by right].
Qed.

Lemma Reverse_new_Var_fresh name init h :
  ∃ x,
    Reverse.new_Var name init h =
      (Ok (Reverse.Var x),
       Reverse.new_heap
         (<[x := Reverse.new_VarObj (default (VNum (PInt 0)) init) name
                   (VNum (PInt 0))]> (Reverse.vars h))
         (Reverse.ops h)) ∧
    Reverse.vars h !! x = None.
Proof.
  exists (fresh (dom (Reverse.vars h))). split; [reflexivity|].
  apply not_elem_of_dom, is_fresh.
Qed.

Lemma Reverse_evaluate_vars n : ∀ h,
  Reverse.vars (snd (Reverse.evaluate n h)) = Reverse.vars h.
Proof.
  assert (Hop : ∀ (op : pyvalue → pyvalue → result pyvalue) x a b,
    (∀ h, Reverse.vars (snd (Reverse.evaluate a h)) = Reverse.vars h) →
    (∀ h, Reverse.vars (snd (Reverse.evaluate b h)) = Reverse.vars h) →
    ∀ h, Reverse.vars
           (snd ((va ← Reverse.evaluate a; vb ← Reverse.evaluate b;
                  v ← lift (op va vb); Reverse.set_op_value x v;; mret v) h))
         = Reverse.vars h).
  { intros op x a b IHa IHb h.
    cbv beta iota delta [mbind M_bind mret M_ret lift Reverse.set_op_value modify].
    specialize (IHa h). destruct (Reverse.evaluate a h) as [[va|e] h1]; [|exact IHa].
    specialize (IHb h1). destruct (Reverse.evaluate b h1) as [[vb|e] h2];
      simpl in *; [|congruence].
    destruct (op va vb); simpl; congruence. }
  induction n as [v|x|x a IHa b IHb|x a IHa b IHb]; intros h.
  - reflexivity.
  - simpl. by destruct (Reverse.vars h !! x).
  - by apply Hop.
  - by apply Hop.
Qed.

Lemma Reverse_backpropagate_twice x o g1 g2 a1 a2 h :
  Reverse.vars h !! x = Some o →
  py_add (Reverse.gradient o) g1 = Ok a1 → py_add a1 g2 = Ok a2 →
  (Reverse.backpropagate (Reverse.Var x) g1;;
   Reverse.backpropagate (Reverse.Var x) g2) h =
    (Ok tt,
     Reverse.new_heap
       (<[x := Reverse.new_VarObj (Reverse.value o) (Reverse.name o) a2]>
          (Reverse.vars h))
       (Reverse.ops h)).
Proof.
  intros Hx H1 H2.
  cbv beta iota delta [mbind M_bind]. 
  rewrite (Reverse_backpropagate_Var x o g1 a1 h Hx H1).
  erewrite Reverse_backpropagate_Var;
    [|simpl; apply lookup_insert_eq|simpl; exact H2].
  simpl. by rewrite insert_insert_eq.
Qed.

Lemma single_variable_pass_seed name init (seed : num) h :
  ∃ acc h',
    single_variable_pass name init (VNum seed) h = (Ok (Some (VNum acc)), h') ∧
    same_number acc seed.
Proof.
  destruct (zero_plus_seed seed) as (acc & Hacc & Hsame).
  exists acc. eexists. split; [|exact Hsame].
  unfold single_variable_pass.
  cbv beta iota delta [mbind M_bind mret M_ret get Reverse.new_Var].
  cbn [Reverse.evaluate Reverse.get_value Reverse.vars Reverse.ops].
  rewrite lookup_insert_eq.
  cbn [Reverse.backpropagate]. unfold Reverse.add_gradient.
  cbn [Reverse.vars Reverse.ops]. rewrite lookup_insert_eq.
  cbn [Reverse.gradient Reverse.value Reverse.name]. rewrite Hacc.
  cbn [Reverse.get_gradient Reverse.vars]. rewrite lookup_insert_eq.
  reflexivity.
Qed.

(** C9. A newly constructed [Var] has [gradient] 0;
    [Var.backpropagate(g)] replaces the gradient by its previous value plus
    [g]; nothing resets it: [evaluate] leaves every variable as it is, and a
    second [backpropagate] adds to what the first left. So for a graph that
    is one new variable, [backpropagate(seed)] leaves the gradient equal to
    the seed (0 + seed: the seed itself, where for the float seed -0.0 the
    sum is the equal float 0.0); with seed 1.0 it is 1.0. Running cell 73's
    pass twice without a reset doubles the gradients to 48.0 and 20.0. *)
Theorem C9_gradient_accumulator :
  (∀ name init h,
     ∃ x,
       Reverse.new_Var name init h =
         (Ok (Reverse.Var x),
          Reverse.new_heap
            (<[x := Reverse.new_VarObj (default (VNum (PInt 0)) init) name
                      (VNum (PInt 0))]> (Reverse.vars h))
            (Reverse.ops h)) ∧
       Reverse.vars h !! x = None) ∧
  (∀ x o g g' h,
     Reverse.vars h !! x = Some o → py_add (Reverse.gradient o) g = Ok g' →
     Reverse.backpropagate (Reverse.Var x) g h =
       (Ok tt,
        Reverse.new_heap
          (<[x := Reverse.new_VarObj (Reverse.value o) (Reverse.name o) g']>
             (Reverse.vars h))
          (Reverse.ops h))) ∧
  (∀ n h, Reverse.vars (snd (Reverse.evaluate n h)) = Reverse.vars h) ∧
  (∀ x o g1 g2 a1 a2 h,
     Reverse.vars h !! x = Some o →
     py_add (Reverse.gradient o) g1 = Ok a1 → py_add a1 g2 = Ok a2 →
     (Reverse.backpropagate (Reverse.Var x) g1;;
      Reverse.backpropagate (Reverse.Var x) g2) h =
       (Ok tt,
        Reverse.new_heap
          (<[x := Reverse.new_VarObj (Reverse.value o) (Reverse.name o) a2]>
             (Reverse.vars h))
          (Reverse.ops h))) ∧
  (∀ name init (seed : num) h,
     ∃ acc h',
       single_variable_pass name init (VNum seed) h
         = (Ok (Some (VNum acc)), h') ∧
       same_number acc seed) ∧
  fst (single_variable_pass "x" None (VNum (PFloat 1)) Reverse.empty_heap)
    = Ok (Some (VNum (PFloat 1))) ∧
  cell73_two_passes = Ok (Some (VNum (PFloat 48)), Some (VNum (PFloat 20))).
Proof.
  split_and!.
  - apply Reverse_new_Var_fresh.
  - apply Reverse_backpropagate_Var.
  - intros n h. apply Reverse_evaluate_vars.
  - apply Reverse_backpropagate_twice.
  - apply single_variable_pass_seed.
  - vm_compute. reflexivity.
  - vm_compute. reflexivity.
Qed.

(** ** C8: the target of a gradient *)

Lemma SFeqb_finite_refl s m e :
  SFeqb (S754_finite s m e) (S754_finite s m e) = true.
Proof.
  unfold SFeqb, SFcompare.
  destruct s; rewrite Z.compare_refl, ?Pos.compare_cont_refl; reflexivity.
Qed.

Lemma is_finite_spec x : PrimFloat.is_finite x = SF_finite (Prim2SF x).
Proof.
  unfold PrimFloat.is_finite, PrimFloat.is_nan, PrimFloat.is_infinity.
  rewrite !FloatAxioms.eqb_spec, abs_spec.
  change (Prim2SF infinity) with (S754_infinity false).
  destruct (Prim2SF x) as [[]|[]| |sx mx ex]; simpl; try reflexivity.
  by rewrite SFeqb_finite_refl.
Qed.

Lemma float_is_zero_spec x :
  PrimFloat.eqb x PrimFloat.zero = SF_zero (Prim2SF x).
Proof.
  rewrite FloatAxioms.eqb_spec. change (Prim2SF zero) with (S754_zero false).
  by destruct (Prim2SF x) as [[]|[]| |[] mx ex].
Qed.

Lemma float_mul_finite_zero x y :
  PrimFloat.is_finite x = true →
  PrimFloat.eqb y PrimFloat.zero = true →
  PrimFloat.eqb (PrimFloat.mul x y) PrimFloat.zero = true.
Proof.
  rewrite is_finite_spec, !float_is_zero_spec, mul_spec.
  by destruct (Prim2SF x), (Prim2SF y).
Qed.

Lemma float_add_zero_zero x y :
  PrimFloat.eqb x PrimFloat.zero = true →
  PrimFloat.eqb y PrimFloat.zero = true →
  PrimFloat.eqb (PrimFloat.add x y) PrimFloat.zero = true.
Proof.
  rewrite !float_is_zero_spec, add_spec.
  by destruct (Prim2SF x) as [[]| | |], (Prim2SF y) as [[]| | |].
Qed.

Lemma float_zero_finite x :
  PrimFloat.eqb x PrimFloat.zero = true → PrimFloat.is_finite x = true.
Proof.
  rewrite float_is_zero_spec, is_finite_spec. by destruct (Prim2SF x).
Qed.

Lemma int_to_float_finite z q :
  int_to_float z = Ok q → PrimFloat.is_finite q = true.
Proof. unfold int_to_float. case_match; congruence. Qed.

Lemma to_float_finite n :
  num_finite n = true →
  ∃ q, to_float n = Ok q ∧ PrimFloat.is_finite q = true.
Proof. unfold num_finite. destruct (to_float n); [eauto | discriminate]. Qed.

Lemma to_float_zero n :
  num_is_zero n = true →
  ∃ q, to_float n = Ok q ∧ PrimFloat.eqb q PrimFloat.zero = true.
Proof.
  destruct n as [z|q]; simpl.
  - intros ->%Z.eqb_eq. rewrite int_to_float_0. eauto.
  - eauto.
Qed.

Lemma num_zero_finite n : num_is_zero n = true → num_finite n = true.
Proof.
  intros (q & Hq & Hz)%to_float_zero. unfold num_finite. rewrite Hq.
  by apply float_zero_finite.
Qed.

Lemma num_mul_finite_zero a b :
  num_finite a = true → num_is_zero b = true →
  ∃ c, num_mul a b = Ok c ∧ num_is_zero c = true.
Proof.
  intros Ha Hb. destruct a as [x|x], b as [y|y].
  - apply Z.eqb_eq in Hb as ->. exists (PInt (x * 0)). split; [reflexivity|].
    simpl. by rewrite Z.mul_0_r.
  - apply to_float_finite in Ha as (q & Hq & Hfin).
    unfold num_mul, arith. rewrite Hq. simpl.
    eexists. split; [reflexivity|]. by apply float_mul_finite_zero.
  - apply to_float_zero in Hb as (q & Hq & Hz).
    unfold num_mul, arith. rewrite Hq. simpl.
    eexists. split; [reflexivity|]. by apply float_mul_finite_zero.
  - eexists. split; [reflexivity|]. by apply float_mul_finite_zero.
Qed.

Lemma num_mul_zero_finite a b :
  num_is_zero a = true → num_finite b = true →
  ∃ c, num_mul a b = Ok c ∧ num_is_zero c = true.
Proof. intros. rewrite num_mul_comm. by apply num_mul_finite_zero. Qed.

Lemma num_add_zero_zero a b :
  num_is_zero a = true → num_is_zero b = true →
  ∃ c, num_add a b = Ok c ∧ num_is_zero c = true.
Proof.
  intros Ha Hb. destruct a as [x|x], b as [y|y].
  - apply Z.eqb_eq in Ha as ->. apply Z.eqb_eq in Hb as ->.
    by exists (PInt 0).
  - apply to_float_zero in Ha as (q & Hq & Hz).
    unfold num_add, arith. rewrite Hq. simpl.
    eexists. split; [reflexivity|]. by apply float_add_zero_zero.
  - apply to_float_zero in Hb as (q & Hq & Hz).
    unfold num_add, arith. rewrite Hq. simpl.
    eexists. split; [reflexivity|]. by apply float_add_zero_zero.
  - eexists. split; [reflexivity|]. by apply float_add_zero_zero.
Qed.

Lemma to_dual_zero b :
  value_is_zero b = true →
  num_is_zero (value (DualNumber.to_dual b)) = true ∧
  num_is_zero (eps (DualNumber.to_dual b)) = true.
Proof.
  destruct b as [k|d]; simpl.
  - intros Hk. split; [exact Hk|]. vm_compute. reflexivity.
  - by intros [? ?]%andb_true_iff.
Qed.

Lemma to_dual_finite b :
  value_finite b = true →
  num_finite (value (DualNumber.to_dual b)) = true ∧
  num_finite (eps (DualNumber.to_dual b)) = true.
Proof.
  destruct b as [k|d]; simpl.
  - intros Hk. split; [exact Hk|]. vm_compute. reflexivity.
  - by intros [? ?]%andb_true_iff.
Qed.

(** The product of two dual numbers when every partial product is zero. *)
Lemma DualNumber_mul_zero d b
    (P Q : num → Prop) :
  (∀ m n, P m → Q n → ∃ c, num_mul m n = Ok c ∧ num_is_zero c = true) →
  P (value d) → P (eps d) →
  Q (value (DualNumber.to_dual b)) → Q (eps (DualNumber.to_dual b)) →
  ∃ c, DualNumber.__mul__ d b = Ok c ∧ value_is_zero (VDual c) = true.
Proof.
  intros Hmul Hv He Hbv Hbe. unfold DualNumber.__mul__.
  destruct (Hmul _ _ Hv Hbv) as (v & -> & Hvz).
  destruct (Hmul _ _ He Hbv) as (e1 & -> & He1).
  destruct (Hmul _ _ Hv Hbe) as (e2 & -> & He2).
  destruct (num_add_zero_zero _ _ He1 He2) as (e & Hadd & Hez).
  simpl. rewrite Hadd. simpl. eexists. split; [reflexivity|].
  simpl. by rewrite Hvz, Hez.
Qed.

Lemma py_mul_finite_zero a b :
  value_finite a = true → value_is_zero b = true →
  ∃ c, py_mul a b = Ok c ∧ value_is_zero c = true.
Proof.
  intros Ha Hb.
  assert (Hdual : ∀ d, value_finite (VDual d) = true →
            ∃ c, py_mul (VDual d) b = Ok c ∧ value_is_zero c = true).
  { intros d [Hv He]%andb_true_iff. destruct (to_dual_zero b Hb) as [Hbv Hbe].
    destruct (DualNumber_mul_zero d b
                (λ m, num_finite m = true) (λ n, num_is_zero n = true))
      as (c & Hc & Hz); try done.
    { intros m n. apply num_mul_finite_zero. }
    exists (VDual c). simpl. by rewrite Hc. }
  destruct a as [x|d], b as [y|dz]; try by apply Hdual.
  - destruct (num_mul_finite_zero x y Ha Hb) as (c & Hc & Hz).
    exists (VNum c). simpl. by rewrite Hc.
  - change (py_mul (VNum x) (VDual dz)) with (py_mul (coerced x) (VDual dz)).
    apply Hdual. simpl. rewrite andb_true_iff. split; [exact Ha|].
    vm_compute. reflexivity.
Qed.

Lemma py_mul_zero_finite a b :
  value_is_zero a = true → value_finite b = true →
  ∃ c, py_mul a b = Ok c ∧ value_is_zero c = true.
Proof.
  intros Ha Hb.
  assert (Hdual : ∀ d, value_is_zero (VDual d) = true →
            ∃ c, py_mul (VDual d) b = Ok c ∧ value_is_zero c = true).
  { intros d [Hv He]%andb_true_iff. destruct (to_dual_finite b Hb) as [Hbv Hbe].
    destruct (DualNumber_mul_zero d b
                (λ m, num_is_zero m = true) (λ n, num_finite n = true))
      as (c & Hc & Hz); try done.
    { intros m n. apply num_mul_zero_finite. }
    exists (VDual c). simpl. by rewrite Hc. }
  destruct a as [x|d], b as [y|dz]; try by apply Hdual.
  - destruct (num_mul_zero_finite x y Ha Hb) as (c & Hc & Hz).
    exists (VNum c). simpl. by rewrite Hc.
  - change (py_mul (VNum x) (VDual dz)) with (py_mul (coerced x) (VDual dz)).
    apply Hdual. simpl. rewrite andb_true_iff. split; [exact Ha|].
    vm_compute. reflexivity.
Qed.

Lemma py_add_zero_zero a b :
  value_is_zero a = true → value_is_zero b = true →
  ∃ c, py_add a b = Ok c ∧ value_is_zero c = true.
Proof.
  intros Ha Hb.
  assert (Hdual : ∀ d, value_is_zero (VDual d) = true →
            ∃ c, py_add (VDual d) b = Ok c ∧ value_is_zero c = true).
  { intros d [Hv He]%andb_true_iff. destruct (to_dual_zero b Hb) as [Hbv Hbe].
    destruct (num_add_zero_zero _ _ Hv Hbv) as (v & Hvadd & Hvz).
    destruct (num_add_zero_zero _ _ He Hbe) as (e & Headd & Hez).
    simpl. unfold DualNumber.__add__. rewrite Hvadd. simpl. rewrite Headd.
    simpl. eexists. split; [reflexivity|]. simpl. by rewrite Hvz, Hez. }
  destruct a as [x|d], b as [y|dz]; try by apply Hdual.
  - destruct (num_add_zero_zero x y Ha Hb) as (c & Hc & Hz).
    exists (VNum c). simpl. by rewrite Hc.
  - change (py_add (VNum x) (VDual dz)) with (py_add (coerced x) (VDual dz)).
    apply Hdual. simpl. rewrite andb_true_iff. split; [exact Ha|].
    vm_compute. reflexivity.
Qed.

Lemma all_finite_evaluate n σ :
  all_finite n σ → ∃ v, Symbolic.evaluate n σ = Ok v ∧ value_finite v = true.
Proof. destruct n; intros [H _]; exact H. Qed.

Lemma gradient_unreached_zero n var σ :
  all_finite n σ → ¬ Symbolic.reaches n var →
  ∃ z, Symbolic.evaluate (Symbolic.gradient n var) σ = Ok z ∧
       value_is_zero z = true.
Proof.
  induction n as [v|x|a IHa b IHb|a IHa b IHb]; intros Hfin Hvar.
  - by exists (VNum (PInt 0)).
  - simpl in *. rewrite decide_False by exact Hvar. by exists (VNum (PInt 0)).
  - destruct Hfin as (_ & Ha & Hb). simpl in Hvar.
    destruct (IHa Ha) as (za & Hza & Hzza); [tauto|].
    destruct (IHb Hb) as (zb & Hzb & Hzzb); [tauto|].
    destruct (py_add_zero_zero za zb Hzza Hzzb) as (z & Hz & Hzz).
    exists z. split; [|exact Hzz].
    cbn [Symbolic.gradient Symbolic.evaluate]. by rewrite Hza, Hzb.
  - destruct Hfin as (_ & Ha & Hb). simpl in Hvar.
    destruct (IHa Ha) as (za & Hza & Hzza); [tauto|].
    destruct (IHb Hb) as (zb & Hzb & Hzzb); [tauto|].
    destruct (all_finite_evaluate a σ Ha) as (va & Hva & Hfa).
    destruct (all_finite_evaluate b σ Hb) as (vb & Hvb & Hfb).
    destruct (py_mul_finite_zero va zb Hfa Hzzb) as (p & Hp & Hpz).
    destruct (py_mul_zero_finite za vb Hzza Hfb) as (q & Hq & Hqz).
    destruct (py_add_zero_zero p q Hpz Hqz) as (z & Hz & Hzz).
    exists z. split; [|exact Hzz].
    cbn [Symbolic.gradient Symbolic.evaluate].
    rewrite Hva, Hzb. cbn [mbind result_bind]. rewrite Hp, Hza, Hvb.
    cbn [mbind result_bind]. by rewrite Hq.
Qed.

Lemma gradient_unreached_ints n var σ :
  ints_only n σ → ¬ Symbolic.reaches n var →
  (∃ z, Symbolic.evaluate n σ = Ok (VNum (PInt z))) ∧
  Symbolic.evaluate (Symbolic.gradient n var) σ = Ok (VNum (PInt 0)).
Proof.
  induction n as [v|x|a IHa b IHb|a IHa b IHb]; intros Hint Hvar.
  - destruct Hint as [z ->]. split; [by exists z | reflexivity].
  - destruct Hint as (o & z & Hx & Hz). simpl in *.
    rewrite Hx, Hz, decide_False by exact Hvar. split; [by exists z | reflexivity].
  - destruct Hint as [Ha Hb]. simpl in Hvar.
    destruct (IHa Ha) as ([za Hza] & Hga); [tauto|].
    destruct (IHb Hb) as ([zb Hzb] & Hgb); [tauto|].
    cbn [Symbolic.gradient Symbolic.evaluate]. rewrite Hza, Hzb, Hga, Hgb.
    split; [by eexists | reflexivity].
  - destruct Hint as [Ha Hb]. simpl in Hvar.
    destruct (IHa Ha) as ([za Hza] & Hga); [tauto|].
    destruct (IHb Hb) as ([zb Hzb] & Hgb); [tauto|].
    cbn [Symbolic.gradient Symbolic.evaluate]. rewrite Hza, Hzb, Hga, Hgb.
    split; [by eexists|]. simpl. by rewrite Z.mul_0_r.
Qed.

Lemma Symbolic_new_Var_twice name v1 v2 σ :
  let '(a, σ1) := Symbolic.new_Var name v1 σ in
  let '(b, σ2) := Symbolic.new_Var name v2 σ1 in
  a ≠ b ∧
  Symbolic.name <$> σ2 !! a = Some name ∧
  Symbolic.name <$> σ2 !! b = Some name ∧
  Symbolic.gradient (Symbolic.Var a) a = Symbolic.Const (VNum (PInt 1)) ∧
  Symbolic.gradient (Symbolic.Var a) b = Symbolic.Const (VNum (PInt 0)) ∧
  Symbolic.gradient (Symbolic.Var b) a = Symbolic.Const (VNum (PInt 0)) ∧
  Symbolic.gradient (Symbolic.Var b) b = Symbolic.Const (VNum (PInt 1)).
Proof.
  unfold Symbolic.new_Var.
  set (a := fresh (dom σ)).
  set (σ1 := <[a := _]> σ).
  set (b := fresh (dom σ1)).
  assert (Hne : a ≠ b).
  { intros Heq. apply (is_fresh (dom σ1)). fold b. rewrite <- Heq.
    apply elem_of_dom. unfold σ1. rewrite lookup_insert_eq. eauto. }
  split_and!.
  - exact Hne.
  - rewrite lookup_insert_ne by (by apply not_eq_sym).
    unfold σ1. by rewrite lookup_insert_eq.
  - by rewrite lookup_insert_eq.
  - simpl. by rewrite decide_True.
  - simpl. by rewrite decide_False.
  - simpl. by rewrite decide_False by (by apply not_eq_sym).
  - simpl. by rewrite decide_True.
Qed.


Lemma cell48_and_z_gradient :
  let '(f, z, σ) := cell48_and_z in
  all_finite f σ ∧ ¬ Symbolic.reaches f z ∧
  Symbolic.evaluate (Symbolic.gradient f z) σ = Ok (VNum (PFloat 0)).
Proof.
  let t := eval vm_compute in cell48_and_z in
  replace cell48_and_z with t by (vm_compute; reflexivity).
  cbv beta iota. split; [|split].
  - cbn [all_finite].
    repeat split; (eexists; split; [vm_compute; reflexivity | reflexivity]).
  - vm_compute. intros H.
    repeat destruct H as [H|H]; first [discriminate H | destruct H].
  - vm_compute. reflexivity.
Qed.


(** ** C7: [gradient] on objects *)

Lemma Objects_new_spec o h :
  h !! fst (Objects.new o h) = None ∧
  snd (Objects.new o h) = <[fst (Objects.new o h) := o]> h ∧
  h ⊆ snd (Objects.new o h).
Proof.
  unfold Objects.new. cbn [fst snd].
  assert (H : h !! fresh (dom h) = None)
    by (apply not_elem_of_dom, is_fresh).
  split_and!; [done|done|]. by apply insert_subseteq.
Qed.

Lemma Objects_represents_weaken h h' self t :
  h ⊆ h' → Objects.represents h self t → Objects.represents h' self t.
Proof.
  intros Hsub. induction 1.
  - eapply Objects.represents_Const. by eapply lookup_weaken.
  - eapply Objects.represents_Var. by eapply lookup_weaken.
  - eapply Objects.represents_Add; [by eapply lookup_weaken|done|done].
  - eapply Objects.represents_Mul; [by eapply lookup_weaken|done|done].
Qed.

Lemma Objects_represents_rebinds h k self t :
  Objects.rebinds h k → Objects.represents h self t →
  Objects.represents k self t.
Proof.
  intros Hk. induction 1 as [self v H|self n v H|self a b ta tb H _ IHa _ IHb
                            |self a b ta tb H _ IHa _ IHb];
    pose proof (Hk self) as Hs; rewrite H in Hs.
  - by eapply Objects.represents_Const.
  - destruct Hs as [v' Hs]. by eapply Objects.represents_Var.
  - by eapply Objects.represents_Add.
  - by eapply Objects.represents_Mul.
Qed.

(** An assignment [x.value = v] is a rebinding. *)
Lemma Objects_set_value_rebinds h x v :
  Objects.rebinds h (Objects.set_value x v h).
Proof.
  intros r. unfold Objects.set_value.
  destruct (decide (x = r)) as [->|Hne].
  - rewrite lookup_alter_eq.
    destruct (h !! r) as [[]|]; simpl; eauto.
  - rewrite lookup_alter_ne by done.
    destruct (h !! r) as [[]|]; eauto.
Qed.

Lemma Objects_store_Var h self name value :
  h !! self = Some (Objects.Var name value) →
  Objects.store h !! self = Some (Symbolic.new_VarObj value name).
Proof. intros H. unfold Objects.store. by rewrite lookup_omap, H. Qed.

(** With fuel for the depth of the graph, [evaluate] on the objects returns
    what [evaluate] on the term returns. *)
Lemma Objects_evaluate_represents h self t :
  Objects.represents h self t →
  ∀ fuel, depth t ≤ fuel →
    Objects.evaluate fuel h self
    = Some (Symbolic.evaluate t (Objects.store h)).
Proof.
  induction 1 as [self v H|self n v H|self a b ta tb H _ IHa _ IHb
                 |self a b ta tb H _ IHa _ IHb];
    intros [|fuel] Hfuel; cbn [depth] in Hfuel; try lia;
    cbn [Objects.evaluate Symbolic.evaluate]; rewrite H.
  - reflexivity.
  - by rewrite (Objects_store_Var _ _ _ _ H).
  - rewrite IHa, IHb by lia. cbn [Objects.operate].
    destruct (Symbolic.evaluate ta _) as [va|]; [|reflexivity].
    by destruct (Symbolic.evaluate tb _) as [vb|].
  - rewrite IHa, IHb by lia. cbn [Objects.operate].
    destruct (Symbolic.evaluate ta _) as [va|]; [|reflexivity].
    by destruct (Symbolic.evaluate tb _) as [vb|].
Qed.

(** [evaluate] reads the objects of the graph only. *)
Lemma Objects_evaluate_weaken h h' self t :
  h ⊆ h' → Objects.represents h self t →
  ∀ fuel, Objects.evaluate fuel h' self = Objects.evaluate fuel h self.
Proof.
  intros Hsub.
  induction 1 as [self v H|self n v H|self a b ta tb H _ IHa _ IHb
                 |self a b ta tb H _ IHa _ IHb];
    intros [|fuel]; try reflexivity; cbn [Objects.evaluate];
    rewrite H, (lookup_weaken _ _ _ _ H Hsub); try reflexivity.
  - by rewrite IHa, IHb.
  - by rewrite IHa, IHb.
Qed.

(** [gradient] returns with fuel for the depth of the graph; it makes new
    objects and writes no other; the new objects form the graph of the
    gradient term. *)
Lemma Objects_gradient_represents var t :
  ∀ h self fuel,
    Objects.represents h self t → depth t ≤ fuel →
    ∃ g h',
      Objects.gradient fuel self var h = Some (g, h') ∧
      h ⊆ h' ∧ h !! g = None ∧
      Objects.represents h' g (Symbolic.gradient t var).
Proof.
  induction t as [v|x|ta IHa tb IHb|ta IHa tb IHb];
    intros h self [|fuel] Hrep Hfuel; cbn [depth] in Hfuel; try lia;
    inversion Hrep as [? ? H|? ? ? H|? a b ? ? H Ha Hb|? a b ? ? H Ha Hb];
    subst; cbn [Objects.gradient Symbolic.gradient]; rewrite H.
  - destruct (Objects_new_spec (Objects.Const (VNum (PInt 0))) h)
      as (Hnone & Hins & Hsub).
    destruct (Objects.new _ h) as [g h'] eqn:E. cbn [fst snd] in *.
    exists g, h'. split_and!; [done|done|done|].
    eapply Objects.represents_Const. subst h'. apply lookup_insert_eq.
  - case_decide.
    + destruct (Objects_new_spec (Objects.Const (VNum (PInt 1))) h)
        as (Hnone & Hins & Hsub).
      destruct (Objects.new _ h) as [g h'] eqn:E. cbn [fst snd] in *.
      exists g, h'. split_and!; [done|done|done|].
      eapply Objects.represents_Const. subst h'. apply lookup_insert_eq.
    + destruct (Objects_new_spec (Objects.Const (VNum (PInt 0))) h)
        as (Hnone & Hins & Hsub).
      destruct (Objects.new _ h) as [g h'] eqn:E. cbn [fst snd] in *.
      exists g, h'. split_and!; [done|done|done|].
      eapply Objects.represents_Const. subst h'. apply lookup_insert_eq.
  - destruct (IHa h a fuel Ha) as (ga & h1 & Ea & S1 & N1 & Ra); [lia|].
    destruct (IHb h1 b fuel) as (gb & h2 & Eb & S2 & N2 & Rb);
      [by eapply Objects_represents_weaken|lia|].
    rewrite Ea. cbn [mbind option_bind]. rewrite Eb. cbn [mbind option_bind].
    destruct (Objects_new_spec (Objects.Add ga gb) h2)
      as (Hnone & Hins & Hsub).
    destruct (Objects.new _ h2) as [g h'] eqn:E. cbn [fst snd] in *.
    assert (S02 : h ⊆ h2) by (by trans h1).
    assert (S1' : h1 ⊆ h') by (by trans h2).
    exists g, h'. split_and!.
    + done.
    + by trans h2.
    + by eapply lookup_weaken_None.
    + eapply Objects.represents_Add.
      * subst h'. apply lookup_insert_eq.
      * exact (Objects_represents_weaken _ _ _ _ S1' Ra).
      * exact (Objects_represents_weaken _ _ _ _ Hsub Rb).
  - destruct (IHb h b fuel Hb) as (gb & h1 & Eb & S1 & N1 & Rb); [lia|].
    rewrite Eb. cbn [mbind option_bind].
    destruct (Objects_new_spec (Objects.Mul a gb) h1)
      as (Hn2 & Hi2 & S2).
    destruct (Objects.new (Objects.Mul a gb) h1) as [l h2] eqn:E2.
    cbn [fst snd] in *.
    destruct (IHa h2 a fuel) as (ga & h3 & Ea & S3 & N3 & Ra);
      [eapply Objects_represents_weaken; [|exact Ha]; by trans h1|lia|].
    rewrite Ea. cbn [mbind option_bind].
    destruct (Objects_new_spec (Objects.Mul ga b) h3)
      as (Hn4 & Hi4 & S4).
    destruct (Objects.new (Objects.Mul ga b) h3) as [r h4] eqn:E4.
    cbn [fst snd] in *.
    destruct (Objects_new_spec (Objects.Add l r) h4)
      as (Hn5 & Hi5 & S5).
    destruct (Objects.new (Objects.Add l r) h4) as [g h5] eqn:E5.
    cbn [fst snd] in *.
    assert (S02 : h ⊆ h2) by (by trans h1).
    assert (S03 : h ⊆ h3) by (by trans h2).
    assert (S04 : h ⊆ h4) by (by trans h3).
    assert (S13 : h1 ⊆ h3) by (by trans h2).
    assert (S25 : h2 ⊆ h5) by (trans h3; [done|by trans h4]).
    exists g, h5. split_and!.
    + done.
    + by trans h4.
    + by eapply lookup_weaken_None.
    + eapply Objects.represents_Add.
      * subst h5. apply lookup_insert_eq.
      * eapply (Objects_represents_weaken h2); [done|].
        eapply Objects.represents_Mul.
        -- subst h2. apply lookup_insert_eq.
        -- exact (Objects_represents_weaken _ _ _ _ S02 Ha).
        -- exact (Objects_represents_weaken _ _ _ _ S2 Rb).
      * eapply (Objects_represents_weaken h4); [done|].
        eapply Objects.represents_Mul.
        -- subst h4. apply lookup_insert_eq.
        -- exact (Objects_represents_weaken _ _ _ _ S4 Ra).
        -- exact (Objects_represents_weaken _ _ _ _ S04 Hb).
Qed.

(** C7. [gradient] writes no object: with the recursion depth the graph
    needs, it returns a new object [g1] and leaves every object that existed
    as it was (attributes and values), so the graph is the same graph and
    its [evaluate] returns what it returned before, with any fuel. A second
    call with the same arguments returns another new object [g2], and the
    two results evaluate to the same value at every binding of the variables:
    the value of the gradient term. *)
Theorem C7_gradient_writes_no_object h self t var fuel :
  Objects.represents h self t → depth t ≤ fuel →
  ∃ g1 h1 g2 h2,
    Objects.gradient fuel self var h = Some (g1, h1) ∧
    Objects.gradient fuel self var h1 = Some (g2, h2) ∧
    h !! g1 = None ∧ h1 !! g2 = None ∧
    (∀ r o, h !! r = Some o → h1 !! r = Some o ∧ h2 !! r = Some o) ∧
    Objects.represents h2 self t ∧
    Objects.evaluate fuel h self
      = Some (Symbolic.evaluate t (Objects.store h)) ∧
    (∀ fuel',
       Objects.evaluate fuel' h1 self = Objects.evaluate fuel' h self ∧
       Objects.evaluate fuel' h2 self = Objects.evaluate fuel' h self) ∧
    ∀ k fuel',
      Objects.rebinds h2 k → depth (Symbolic.gradient t var) ≤ fuel' →
      Objects.evaluate fuel' k g1
        = Some (Symbolic.evaluate (Symbolic.gradient t var) (Objects.store k)) ∧
      Objects.evaluate fuel' k g2
        = Some (Symbolic.evaluate (Symbolic.gradient t var) (Objects.store k)).
Proof.
  intros Hrep Hfuel.
  destruct (Objects_gradient_represents var t h self fuel Hrep Hfuel)
    as (g1 & h1 & E1 & S1 & N1 & R1).
  pose proof (Objects_represents_weaken _ _ _ _ S1 Hrep) as Hrep1.
  destruct (Objects_gradient_represents var t h1 self fuel Hrep1 Hfuel)
    as (g2 & h2 & E2 & S2 & N2 & R2).
  assert (S02 : h ⊆ h2) by (by trans h1).
  exists g1, h1, g2, h2. split_and!; try done.
  - intros r o Hr. split; by eapply lookup_weaken.
  - exact (Objects_represents_weaken _ _ _ _ S02 Hrep).
  - by apply Objects_evaluate_represents.
  - intros fuel'. split.
    + exact (Objects_evaluate_weaken _ _ _ _ S1 Hrep fuel').
    + exact (Objects_evaluate_weaken _ _ _ _ S02 Hrep fuel').
  - intros k fuel' Hk Hfuel'. split.
    + apply Objects_evaluate_represents; [|done].
      apply (Objects_represents_rebinds h2); [exact Hk|].
      exact (Objects_represents_weaken _ _ _ _ S2 R1).
    + apply Objects_evaluate_represents; [|done].
      exact (Objects_represents_rebinds _ _ _ _ Hk R2).
Qed.

Lemma C7_gradient_writes_no_object_witness :
  let '(x, y, f, h) := Objects.cell48 in
  let t := Symbolic.f_graph x y in
  (Objects.represents h f t ∧ depth t ≤ 4) ∧
  ∃ g1 h1 g2 h2,
    Objects.gradient 4 f x h = Some (g1, h1) ∧
    Objects.gradient 4 f x h1 = Some (g2, h2) ∧
    h !! g1 = None ∧ h1 !! g2 = None ∧
    (∀ r o, h !! r = Some o → h1 !! r = Some o ∧ h2 !! r = Some o) ∧
    Objects.represents h2 f t ∧
    Objects.evaluate 4 h f = Some (Symbolic.evaluate t (Objects.store h)) ∧
    (∀ fuel',
       Objects.evaluate fuel' h1 f = Objects.evaluate fuel' h f ∧
       Objects.evaluate fuel' h2 f = Objects.evaluate fuel' h f) ∧
    ∀ k fuel',
      Objects.rebinds h2 k → depth (Symbolic.gradient t x) ≤ fuel' →
      Objects.evaluate fuel' k g1
        = Some (Symbolic.evaluate (Symbolic.gradient t x) (Objects.store k)) ∧
      Objects.evaluate fuel' k g2
        = Some (Symbolic.evaluate (Symbolic.gradient t x) (Objects.store k)).
Proof.
  let c := eval vm_compute in Objects.cell48 in
  replace Objects.cell48 with c by (vm_compute; reflexivity).
  cbv beta iota zeta.
  match goal with |- (?R ∧ ?D) ∧ _ => assert (Hrep : R); [|assert (Hd : D)] end.
  - unfold Symbolic.f_graph.
    eapply Objects.represents_Add; [reflexivity| |].
    + eapply Objects.represents_Mul; [reflexivity| |].
      * eapply Objects.represents_Mul; [reflexivity| |];
          eapply Objects.represents_Var; reflexivity.
      * eapply Objects.represents_Var; reflexivity.
    + eapply Objects.represents_Add; [reflexivity| |].
      * eapply Objects.represents_Var; reflexivity.
      * eapply Objects.represents_Const; reflexivity.
  - vm_compute. lia.
  - split; [by split|].
    exact (C7_gradient_writes_no_object _ _ _ 1%positive 4 Hrep Hd).
Defined.

(** ** The caching variant against the first variant *)

Lemma store_of_lookup h x :
  store_of h !! x =
  (λ o, Symbolic.new_VarObj (Reverse.value o) (Reverse.name o))
    <$> Reverse.vars h !! x.
Proof. unfold store_of. apply lookup_fmap. Qed.

Lemma store_of_vars h h' :
  Reverse.vars h' = Reverse.vars h → store_of h' = store_of h.
Proof. unfold store_of. by intros ->. Qed.

Lemma Reverse_evaluate_erase n : ∀ h,
  fst (Reverse.evaluate n h) = Symbolic.evaluate (erase n) (store_of h).
Proof.
  assert (Hop : ∀ (op : pyvalue → pyvalue → result pyvalue) x a b,
    (∀ h, fst (Reverse.evaluate a h) = Symbolic.evaluate (erase a) (store_of h)) →
    (∀ h, fst (Reverse.evaluate b h) = Symbolic.evaluate (erase b) (store_of h)) →
    ∀ h, fst ((va ← Reverse.evaluate a; vb ← Reverse.evaluate b;
               v ← lift (op va vb); Reverse.set_op_value x v;; mret v) h)
         = (va ← Symbolic.evaluate (erase a) (store_of h);
            vb ← Symbolic.evaluate (erase b) (store_of h); op va vb)).
  { intros op x a b IHa IHb h.
    cbv beta iota delta [mbind M_bind mret M_ret lift Reverse.set_op_value modify].
    rewrite <- IHa. pose proof (Reverse_evaluate_vars a h) as Hv.
    destruct (Reverse.evaluate a h) as [[va|e] h1]; [|reflexivity].
    simpl in Hv. rewrite <- (store_of_vars h h1 Hv), <- IHb.
    destruct (Reverse.evaluate b h1) as [[vb|e] h2]; [|reflexivity].
    simpl. by destruct (op va vb). }
  induction n as [v|x|x a IHa b IHb|x a IHa b IHb]; intros h.
  - reflexivity.
  - simpl. rewrite store_of_lookup. by destruct (Reverse.vars h !! x).
  - by apply Hop.
  - by apply Hop.
Qed.

(** ** Reverse mode against forward mode, over ints *)

Lemma ints_only_evaluate e σ :
  ints_only e σ →
  Symbolic.evaluate e σ = Ok (VNum (PInt (int_value e σ))).
Proof.
  induction e as [v|x|a IHa b IHb|a IHa b IHb]; simpl.
  - by intros [z ->].
  - intros (o & z & -> & Hz). simpl. by rewrite Hz.
  - intros [Ha Hb]. by rewrite IHa, IHb.
  - intros [Ha Hb]. by rewrite IHa, IHb.
Qed.

Lemma ints_only_gradient e σ x :
  ints_only e σ →
  Symbolic.evaluate (Symbolic.gradient e x) σ
    = Ok (VNum (PInt (int_partial e σ x))).
Proof.
  induction e as [v|y|a IHa b IHb|a IHa b IHb]; simpl.
  - reflexivity.
  - intros _. by case_decide.
  - intros [Ha Hb]. by rewrite IHa, IHb.
  - intros [Ha Hb].
    by rewrite (ints_only_evaluate a σ Ha), (ints_only_evaluate b σ Hb), IHa, IHb.
Qed.

Lemma cached_ext n h h' :
  store_of h' = store_of h →
  (∀ i, i ∈ op_refs n → Reverse.ops h' !! i = Reverse.ops h !! i) →
  cached n h → cached n h'.
Proof.
  intros Hσ. induction n as [v|x|x a IHa b IHb|x a IHa b IHb]; simpl; try done.
  - intros Hops (Hx & Ha & Hb). rewrite Hσ, Hops by set_solver.
    split_and!; [done|apply IHa|apply IHb]; try done; intros; apply Hops; set_solver.
  - intros Hops (Hx & Ha & Hb). rewrite Hσ, Hops by set_solver.
    split_and!; [done|apply IHa|apply IHb]; try done; intros; apply Hops; set_solver.
Qed.

Lemma Reverse_evaluate_ints n : ∀ h,
  ints_only (erase n) (store_of h) → NoDup (op_refs n) →
  ∃ h',
    Reverse.evaluate n h =
      (Ok (VNum (PInt (int_value (erase n) (store_of h)))), h') ∧
    Reverse.vars h' = Reverse.vars h ∧
    cached n h' ∧
    (∀ i, i ∉ op_refs n → Reverse.ops h' !! i = Reverse.ops h !! i).
Proof.
  assert (Hop : ∀ (op : pyvalue → pyvalue → result pyvalue) (iop : Z → Z → Z)
      x a b h h1 h2,
    (∀ m n, op (VNum (PInt m)) (VNum (PInt n)) = Ok (VNum (PInt (iop m n)))) →
    x ∉ op_refs a ++ op_refs b →
    (∀ i, i ∈ op_refs a → i ∉ op_refs b) →
    Reverse.evaluate a h =
      (Ok (VNum (PInt (int_value (erase a) (store_of h)))), h1) →
    Reverse.vars h1 = Reverse.vars h → cached a h1 →
    (∀ i, i ∉ op_refs a → Reverse.ops h1 !! i = Reverse.ops h !! i) →
    Reverse.evaluate b h1 =
      (Ok (VNum (PInt (int_value (erase b) (store_of h1)))), h2) →
    Reverse.vars h2 = Reverse.vars h1 → cached b h2 →
    (∀ i, i ∉ op_refs b → Reverse.ops h2 !! i = Reverse.ops h1 !! i) →
    let v := iop (int_value (erase a) (store_of h)) (int_value (erase b) (store_of h)) in
    let h' := Reverse.new_heap (Reverse.vars h2)
                (<[x := Some (VNum (PInt v))]> (Reverse.ops h2)) in
    (va ← Reverse.evaluate a; vb ← Reverse.evaluate b;
     r ← lift (op va vb); Reverse.set_op_value x r;; mret r) h
      = (Ok (VNum (PInt v)), h') ∧
    Reverse.vars h' = Reverse.vars h ∧
    (Reverse.ops h' !! x = Some (Some (VNum (PInt v))) ∧ cached a h' ∧ cached b h') ∧
    (∀ i, i ∉ x :: op_refs a ++ op_refs b →
       Reverse.ops h' !! i = Reverse.ops h !! i)).
  { intros op iop x a b h h1 h2 Hiop Hx Hdisj Ea Hv1 Ca Fa Eb Hv2 Cb Fb v h'.
    assert (Hσ1 : store_of h1 = store_of h) by (by apply store_of_vars).
    assert (Hσ' : store_of h' = store_of h).
    { apply store_of_vars. simpl. congruence. }
    split_and!.
    - cbv beta iota delta [mbind M_bind mret M_ret lift Reverse.set_op_value modify].
      rewrite Ea, Eb, Hσ1, Hiop. reflexivity.
    - simpl. congruence.
    - simpl. apply lookup_insert_eq.
    - apply (cached_ext a h1); [congruence| |exact Ca].
      intros i Hi. simpl. rewrite lookup_insert_ne by set_solver.
      apply Fb. by apply Hdisj.
    - apply (cached_ext b h2); [rewrite Hσ'; symmetry; apply store_of_vars; congruence| |exact Cb].
      intros i Hi. simpl. rewrite lookup_insert_ne by set_solver. done.
    - intros i Hi. simpl. rewrite lookup_insert_ne by set_solver.
      rewrite Fb, Fa by set_solver. done. }
  assert (Hsplit : ∀ x (l1 l2 : list ref), NoDup (x :: l1 ++ l2) →
            (x ∉ l1 ++ l2) ∧ NoDup l1 ∧ NoDup l2 ∧ (∀ i, i ∈ l1 → i ∉ l2)).
  { intros x l1 l2 [Hx (H1 & Hd & H2)%NoDup_app]%NoDup_cons. done. }
  induction n as [v|x|x a IHa b IHb|x a IHa b IHb]; intros h Hint Hnd.
  - destruct Hint as [z ->]. exists h. by split_and!.
  - destruct Hint as (o & z & Hx & Hz). rewrite store_of_lookup in Hx.
    destruct (Reverse.vars h !! x) as [o'|] eqn:E; [|discriminate].
    injection Hx as <-. simpl in Hz.
    exists h. split_and!; try done.
    simpl. rewrite E, store_of_lookup, E. simpl. by rewrite Hz.
  - destruct Hint as [Ha Hb]. simpl in Hnd.
    destruct (Hsplit _ _ _ Hnd) as (Hx & Hna & Hnb & Hdisj).
    destruct (IHa h Ha Hna) as (h1 & Ea & Hv1 & Ca & Fa).
    assert (Hσ1 : store_of h1 = store_of h) by (by apply store_of_vars).
    rewrite <- Hσ1 in Hb.
    destruct (IHb h1 Hb Hnb) as (h2 & Eb & Hv2 & Cb & Fb).
    destruct (Hop py_add Z.add x a b h h1 h2) as (E & Hv & (Hx' & Ca' & Cb') & F);
      try done.
    eexists. split_and!; [exact E|exact Hv| |exact F].
    cbn [cached erase int_value]. rewrite (store_of_vars _ _ Hv).
    by split_and!.
  - destruct Hint as [Ha Hb]. simpl in Hnd.
    destruct (Hsplit _ _ _ Hnd) as (Hx & Hna & Hnb & Hdisj).
    destruct (IHa h Ha Hna) as (h1 & Ea & Hv1 & Ca & Fa).
    assert (Hσ1 : store_of h1 = store_of h) by (by apply store_of_vars).
    rewrite <- Hσ1 in Hb.
    destruct (IHb h1 Hb Hnb) as (h2 & Eb & Hv2 & Cb & Fb).
    destruct (Hop py_mul Z.mul x a b h h1 h2) as (E & Hv & (Hx' & Ca' & Cb') & F);
      try done.
    eexists. split_and!; [exact E|exact Hv| |exact F].
    cbn [cached erase int_value]. rewrite (store_of_vars _ _ Hv).
    by split_and!.
Qed.

Lemma add_to_gradient_0 o :
  is_int (Reverse.gradient o) = true → add_to_gradient 0 o = o.
Proof.
  destruct o as [v nm [[g|]|]]; try discriminate. intros _.
  unfold add_to_gradient. simpl. by rewrite Z.add_0_r.
Qed.

Lemma add_to_gradient_add d1 d2 o :
  add_to_gradient d2 (add_to_gradient d1 o) = add_to_gradient (d1 + d2) o.
Proof.
  destruct o as [v nm [[g|]|]]; try reflexivity.
  unfold add_to_gradient. simpl. by rewrite Z.add_assoc.
Qed.

Lemma add_to_gradient_is_int d o :
  is_int (Reverse.gradient o) = true →
  is_int (Reverse.gradient (add_to_gradient d o)) = true.
Proof. by destruct o as [v nm [[g|]|]]. Qed.

Lemma add_to_gradient_store d o :
  Symbolic.new_VarObj (Reverse.value (add_to_gradient d o))
    (Reverse.name (add_to_gradient d o))
  = Symbolic.new_VarObj (Reverse.value o) (Reverse.name o).
Proof. by destruct o as [v nm [[g|]|]]. Qed.

Lemma bumped_store n g h h' : bumped n g h h' → store_of h' = store_of h.
Proof.
  intros [_ H]. apply map_eq. intros x. rewrite !store_of_lookup, H.
  destruct (Reverse.vars h !! x) as [o|]; simpl; [|done].
  by rewrite add_to_gradient_store.
Qed.

Lemma bumped_int_gradients n g h h' :
  bumped n g h h' → int_gradients h → int_gradients h'.
Proof.
  intros [_ H] Hint x o. rewrite H.
  destruct (Reverse.vars h !! x) as [o'|] eqn:E; [|discriminate].
  intros [= <-]. apply add_to_gradient_is_int, (Hint x o' E).
Qed.

Lemma get_value_cached m h :
  ints_only (erase m) (store_of h) → cached m h →
  Reverse.get_value m h =
    (Ok (VNum (PInt (int_value (erase m) (store_of h)))), h).
Proof.
  destruct m as [v|x|x a b|x a b]; simpl.
  - by intros [z ->] _.
  - intros (o & z & Hx & Hz) _. rewrite store_of_lookup in *.
    destruct (Reverse.vars h !! x) as [o'|]; [|discriminate].
    injection Hx as <-. simpl in *. by rewrite Hz.
  - by intros _ (-> & _).
  - by intros _ (-> & _).
Qed.

Lemma Reverse_backpropagate_ints n : ∀ g h,
  ints_only (erase n) (store_of h) → cached n h → int_gradients h →
  ∃ h', Reverse.backpropagate n (VNum (PInt g)) h = (Ok tt, h') ∧
        bumped n g h h'.
Proof.
  induction n as [v|x|x a IHa b IHb|x a IHa b IHb]; intros g h Hint Hc Hg.
  - exists h. split; [reflexivity|]. split; [reflexivity|].
    intros x. simpl. rewrite Z.mul_0_r.
    destruct (Reverse.vars h !! x) as [o|] eqn:E; [|done].
    simpl. by rewrite (add_to_gradient_0 o (Hg x o E)).
  - destruct Hint as (o' & z & Hx & Hz). rewrite store_of_lookup in Hx.
    destruct (Reverse.vars h !! x) as [o|] eqn:E; [|discriminate].
    pose proof (Hg x o E) as Hgo.
    destruct o as [v nm [[gx|]|]]; try discriminate.
    eexists. split.
    { apply (Reverse_backpropagate_Var x _ _ (VNum (PInt (gx + g))) h E).
      reflexivity. }
    split; [reflexivity|]. intros y. cbn [Reverse.vars erase int_partial].
    destruct (decide (x = y)) as [->|Hne].
    + rewrite lookup_insert_eq, E. simpl. unfold add_to_gradient. simpl.
      by rewrite Z.mul_1_r.
    + rewrite lookup_insert_ne by done. rewrite Z.mul_0_r.
      destruct (Reverse.vars h !! y) as [oy|] eqn:Ey; [|done].
      simpl. by rewrite (add_to_gradient_0 oy (Hg y oy Ey)).
  - destruct Hint as [Ha Hb]. destruct Hc as (_ & Ca & Cb).
    destruct (IHa g h Ha Ca Hg) as (h1 & E1 & B1).
    pose proof (bumped_store _ _ _ _ B1) as Hσ1.
    destruct (IHb g h1) as (h2 & E2 & B2).
    { by rewrite Hσ1. }
    { apply (cached_ext b h); [done| |done]. intros i _. by rewrite (proj1 B1). }
    { exact (bumped_int_gradients a _ h h1 B1 Hg). }
    exists h2. split.
    { cbn [Reverse.backpropagate]. cbv beta iota delta [mbind M_bind].
      by rewrite E1. }
    destruct B1 as [O1 V1], B2 as [O2 V2]. split; [congruence|].
    intros y. rewrite V2, V1, Hσ1. cbn [erase int_partial].
    destruct (Reverse.vars h !! y) as [oy|]; [|done]. simpl.
    rewrite add_to_gradient_add. do 2 f_equal. lia.
  - destruct Hint as [Ha Hb]. destruct Hc as (_ & Ca & Cb).
    pose proof (get_value_cached b h Hb Cb) as Gb.
    destruct (IHa (g * int_value (erase b) (store_of h))%Z h Ha Ca Hg)
      as (h1 & E1 & B1).
    pose proof (bumped_store _ _ _ _ B1) as Hσ1.
    assert (Ca1 : cached a h1).
    { apply (cached_ext a h); [done| |done]. intros i _. by rewrite (proj1 B1). }
    assert (Ga : Reverse.get_value a h1 =
              (Ok (VNum (PInt (int_value (erase a) (store_of h)))), h1)).
    { rewrite <- Hσ1. apply get_value_cached; [by rewrite Hσ1 | done]. }
    destruct (IHb (g * int_value (erase a) (store_of h))%Z h1) as (h2 & E2 & B2).
    { by rewrite Hσ1. }
    { apply (cached_ext b h); [done| |done]. intros i _. by rewrite (proj1 B1). }
    { exact (bumped_int_gradients a _ h h1 B1 Hg). }
    exists h2. split.
    { cbn [Reverse.backpropagate].
      cbv beta iota delta [mbind M_bind lift].
      rewrite Gb. cbn [py_mul num_mul arith fmap result_fmap].
      rewrite E1, Ga. cbn [py_mul num_mul arith fmap result_fmap].
      exact E2. }
    destruct B1 as [O1 V1], B2 as [O2 V2]. split; [congruence|].
    intros y. rewrite V2, V1, Hσ1. cbn [erase int_partial].
    destruct (Reverse.vars h !! y) as [oy|]; [|done]. simpl.
    rewrite add_to_gradient_add. do 2 f_equal. lia.
Qed.

(** X1. Over ints, reverse mode computes what forward mode computes. The
    graph holds ints only (constants and variable values), its operator
    objects are distinct, the [gradient] attribute of every variable holds
    an int (as it does when the variable is constructed), and the seed is an
    int [g]. Then [evaluate] followed by [backpropagate(g)] returns, and adds
    to the [gradient] of every variable [g] times the integer that the
    gradient graph of the first classes evaluates to for that variable;
    variables the graph does not reach get [g * 0]. *)
Theorem backpropagate_adds_forward_gradient n g h :
  ints_only (erase n) (store_of h) → NoDup (op_refs n) → int_gradients h →
  ∃ v h1 h2,
    Symbolic.evaluate (erase n) (store_of h) = Ok v ∧
    Reverse.evaluate n h = (Ok v, h1) ∧
    Reverse.backpropagate n (VNum (PInt g)) h1 = (Ok tt, h2) ∧
    ∀ x o, Reverse.vars h !! x = Some o →
      ∃ d, Symbolic.evaluate (Symbolic.gradient (erase n) x) (store_of h)
             = Ok (VNum (PInt d)) ∧
           Reverse.vars h2 !! x = Some (add_to_gradient (g * d) o).
Proof.
  intros Hint Hnd Hg.
  destruct (Reverse_evaluate_ints n h Hint Hnd) as (h1 & E1 & Hv & Hc & _).
  pose proof (store_of_vars h h1 Hv) as Hσ.
  destruct (Reverse_backpropagate_ints n g h1) as (h2 & E2 & _ & Hb).
  { by rewrite Hσ. } { done. } { unfold int_gradients. by rewrite Hv. }
  exists (VNum (PInt (int_value (erase n) (store_of h)))), h1, h2.
  split_and!; [by apply ints_only_evaluate|done|done|].
  intros x o Hx. exists (int_partial (erase n) (store_of h) x).
  split; [by apply ints_only_gradient|].
  by rewrite Hb, Hv, Hx, Hσ.
Qed.

Lemma backpropagate_adds_forward_gradient_witness :
  let n := fst cell73_graph in
  let h := snd cell73_graph in
  (ints_only (erase n) (store_of h) ∧ NoDup (op_refs n) ∧ int_gradients h) ∧
  ∃ v h1 h2,
    Symbolic.evaluate (erase n) (store_of h) = Ok v ∧
    Reverse.evaluate n h = (Ok v, h1) ∧
    Reverse.backpropagate n (VNum (PInt 1)) h1 = (Ok tt, h2) ∧
    ∀ x o, Reverse.vars h !! x = Some o →
      ∃ d, Symbolic.evaluate (Symbolic.gradient (erase n) x) (store_of h)
             = Ok (VNum (PInt d)) ∧
           Reverse.vars h2 !! x = Some (add_to_gradient (1 * d) o).
Proof.
  cbv zeta.
  assert (H : ints_only (erase (fst cell73_graph)) (store_of (snd cell73_graph)) ∧
              NoDup (op_refs (fst cell73_graph)) ∧
              int_gradients (snd cell73_graph)).
  { let t := eval vm_compute in cell73_graph in
    replace cell73_graph with t by (vm_compute; reflexivity).
    cbn [fst snd erase ints_only op_refs app]. split_and!.
    - eexists _, _. split; [vm_compute; reflexivity | reflexivity].
    - eexists _, _. split; [vm_compute; reflexivity | reflexivity].
    - eexists _, _. split; [vm_compute; reflexivity | reflexivity].
    - eexists _, _. split; [vm_compute; reflexivity | reflexivity].
    - by eexists.
    - apply (bool_decide_unpack _). vm_compute. reflexivity.
    - apply (bool_decide_unpack _). vm_compute. reflexivity. }
  split; [exact H|].
  destruct H as (H1 & H2 & H3).
  exact (backpropagate_adds_forward_gradient _ 1 _ H1 H2 H3).
Defined.

(** ** Evaluation and the variables a graph reaches *)

Lemma Symbolic_evaluate_ext e σ σ' :
  (∀ x, Symbolic.reaches e x →
        Symbolic.value <$> σ' !! x = Symbolic.value <$> σ !! x) →
  Symbolic.evaluate e σ' = Symbolic.evaluate e σ.
Proof.
  induction e as [v|y|a IHa b IHb|a IHa b IHb]; simpl; intros H.
  - reflexivity.
  - specialize (H y eq_refl).
    destruct (σ' !! y), (σ !! y); simpl in H; congruence.
  - rewrite IHa, IHb by (intros; apply H; tauto). reflexivity.
  - rewrite IHa, IHb by (intros; apply H; tauto). reflexivity.
Qed.

(** X3. Evaluation reads only the variables the graph reaches: after
    [x.value = v] on a variable [x] that the graph does not hold, [evaluate]
    returns what it returned before, result or exception, whatever [v] is. *)
Theorem evaluate_reads_reached_variables e σ x v :
  ¬ Symbolic.reaches e x →
  Symbolic.evaluate e (Symbolic.set_value x v σ) = Symbolic.evaluate e σ.
Proof.
  intros Hx. apply Symbolic_evaluate_ext. intros y Hy.
  unfold Symbolic.set_value. rewrite lookup_alter_ne; [done|].
  intros ->. contradiction.
Qed.

Lemma evaluate_reads_reached_variables_witness :
  let '(f, z, σ) := cell48_and_z in
  ¬ Symbolic.reaches f z ∧
  Symbolic.evaluate f (Symbolic.set_value z (VNum (PInt 5)) σ)
  = Symbolic.evaluate f σ.
Proof.
  pose proof cell48_and_z_gradient as H.
  destruct cell48_and_z as [[f z] σ]. destruct H as (_ & H & _).
  split; [exact H|].
  exact (evaluate_reads_reached_variables f σ z (VNum (PInt 5)) H).
Defined.

(** ** The size of a gradient graph *)

Lemma node_count_pos n : 1 ≤ node_count n.
Proof. destruct n; simpl; lia. Qed.

(** X4. [gradient] performs no simplification but one differentiation
    cannot blow the graph up: the gradient graph has at least as many nodes
    as the graph and at most the square of that number. *)
Theorem gradient_size_bounds n var :
  node_count n ≤ node_count (Symbolic.gradient n var)
               ≤ node_count n * node_count n.
Proof.
  induction n as [v|y|a IHa b IHb|a IHa b IHb]; simpl.
  - lia.
  - case_decide; simpl; lia.
  - pose proof (node_count_pos a). pose proof (node_count_pos b). nia.
  - pose proof (node_count_pos a). pose proof (node_count_pos b). nia.
Qed.

(** ** Renderings of nested sums *)

Lemma string_app_assoc (s1 s2 s3 : string) :
  (s1 +:+ s2) +:+ s3 = s1 +:+ (s2 +:+ s3).
Proof.
  induction s1 as [|c s1 IH]; [reflexivity|].
  change (String c ((s1 +:+ s2) +:+ s3) = String c (s1 +:+ (s2 +:+ s3))).
  by rewrite IH.
Qed.

(** X5. [Add.__str__] joins the operands' renderings with [" + "] and
    adds no parentheses, so the rendering forgets how sums are grouped:
    [Add(Add(a, b), c)] and [Add(a, Add(b, c))] render the same (or raise
    the same exception), for all graphs a, b, c. *)
Theorem Add_rendering_forgets_grouping str a b c σ :
  Symbolic.__str__ str (Symbolic.Add (Symbolic.Add a b) c) σ =
  Symbolic.__str__ str (Symbolic.Add a (Symbolic.Add b c)) σ.
Proof.
  simpl.
  destruct (Symbolic.__str__ str a σ) as [sa|]; simpl; [|reflexivity].
  destruct (Symbolic.__str__ str b σ) as [sb|]; simpl; [|reflexivity].
  destruct (Symbolic.__str__ str c σ) as [sc|]; simpl; [|reflexivity].
  f_equal. by rewrite !string_app_assoc.
Qed.



(** ** Commutativity of [+] and [*] *)

Lemma DualNumber_add_comm d1 d2 :
  DualNumber.__add__ d1 (VDual d2) = DualNumber.__add__ d2 (VDual d1).
Proof.
  unfold DualNumber.__add__. simpl.
  by rewrite (num_add_comm (value d1)), (num_add_comm (eps d1)).
Qed.

Lemma DualNumber_mul_comm d1 d2 :
  DualNumber.__mul__ d1 (VDual d2) = DualNumber.__mul__ d2 (VDual d1).
Proof.
  destruct d1 as [a1 b1], d2 as [a2 b2].
  rewrite !DualNumber_mul_rule. unfold dual_mul_rule.
  rewrite (num_mul_comm a2 a1).
  destruct (num_mul a1 a2) as [v|]; simpl; [|reflexivity].
  rewrite (num_mul_comm a2 b1), (num_mul_comm a1 b2).
  destruct (num_mul b2 a1) as [p|e1] eqn:Hp, (num_mul b1 a2) as [q|e2] eqn:Hq;
    simpl; try reflexivity.
  - by rewrite (num_add_comm p q).
  - apply arith_Raise in Hp, Hq. congruence.
Qed.

(** X7. [+] and [*] are commutative on all values, numbers and dual
    numbers alike, bare numbers on either side included: [a + b] and [b + a]
    (and [a * b] and [b * a]) return the same value or raise the same
    exception. For floats this rests on the commutativity of binary64
    addition and multiplication. *)
Theorem py_add_mul_comm a b :
  py_add a b = py_add b a ∧ py_mul a b = py_mul b a.
Proof.
  destruct a as [x|d1], b as [y|d2]; simpl; split.
  - by rewrite num_add_comm.
  - by rewrite num_mul_comm.
  - unfold DualNumber.__radd__. by rewrite DualNumber_add_comm.
  - unfold DualNumber.__rmul__. by rewrite DualNumber_mul_comm.
  - unfold DualNumber.__radd__. by rewrite DualNumber_add_comm.
  - unfold DualNumber.__rmul__. by rewrite DualNumber_mul_comm.
  - by rewrite DualNumber_add_comm.
  - by rewrite DualNumber_mul_comm.
Qed.

(** ** The value component of a dual-number evaluation *)

Lemma py_add_primal a b c :
  py_add a b = Ok c → py_add (primal a) (primal b) = Ok (primal c).
Proof.
  assert (H : ∀ d v, DualNumber.__add__ d v = Ok (DualNumber.to_dual c) →
            num_add (value d) (value (DualNumber.to_dual v))
              = Ok (value (DualNumber.to_dual c))).
  { intros d v. unfold DualNumber.__add__.
    destruct (num_add (value d) _) as [s|]; simpl; [|discriminate].
    destruct (num_add (eps d) _) as [e|]; simpl; [|discriminate].
    by intros [= <-]. }
  unfold primal. destruct a as [x|d1], b as [y|d2]; simpl.
  - destruct (num_add x y) as [s|]; simpl; [|discriminate]. by intros [= <-].
  - intros (r & Hr & ->)%fmap_Ok. pose proof (H _ _ Hr) as H'.
    simpl in H'. by rewrite H'.
  - intros (r & Hr & ->)%fmap_Ok. pose proof (H _ _ Hr) as H'.
    simpl in H'. by rewrite H'.
  - intros (r & Hr & ->)%fmap_Ok. pose proof (H _ _ Hr) as H'.
    simpl in H'. by rewrite H'.
Qed.

Lemma py_mul_primal a b c :
  py_mul a b = Ok c → py_mul (primal a) (primal b) = Ok (primal c).
Proof.
  assert (H : ∀ d v, DualNumber.__mul__ d v = Ok (DualNumber.to_dual c) →
            num_mul (value d) (value (DualNumber.to_dual v))
              = Ok (value (DualNumber.to_dual c))).
  { intros d v. unfold DualNumber.__mul__.
    destruct (num_mul (value d) (value (DualNumber.to_dual v))) as [s|];
      simpl; [|discriminate].
    destruct (num_mul (eps d) (value (DualNumber.to_dual v))) as [e1|];
      simpl; [|discriminate].
    destruct (num_mul (value d) (eps (DualNumber.to_dual v))) as [e2|];
      simpl; [|discriminate].
    destruct (num_add e1 e2) as [e|]; simpl; [|discriminate].
    by intros [= <-]. }
  unfold primal. destruct a as [x|d1], b as [y|d2]; simpl.
  - destruct (num_mul x y) as [s|]; simpl; [|discriminate]. by intros [= <-].
  - intros (r & Hr & ->)%fmap_Ok. pose proof (H _ _ Hr) as H'.
    simpl in H'. by rewrite H'.
  - intros (r & Hr & ->)%fmap_Ok. pose proof (H _ _ Hr) as H'.
    simpl in H'. by rewrite H'.
  - intros (r & Hr & ->)%fmap_Ok. pose proof (H _ _ Hr) as H'.
    simpl in H'. by rewrite H'.
Qed.

(** X8. A dual-number evaluation carries the ordinary value along
    unchanged: when [evaluate] returns with variables (or constants) bound
    to dual numbers, the [value] component of the result is exactly what
    [evaluate] returns when every dual number is replaced by its [value]
    component. *)
Theorem dual_evaluation_carries_the_value e σ v :
  Symbolic.evaluate e σ = Ok v →
  Symbolic.evaluate (primal_graph e) (primal_store σ) = Ok (primal v).
Proof.
  revert v. induction e as [c|x|a IHa b IHb|a IHa b IHb]; simpl; intros v.
  - by intros [= <-].
  - unfold primal_store. rewrite lookup_fmap.
    destruct (σ !! x) as [o|]; simpl; [|discriminate]. by intros [= <-].
  - intros (va & Ha & H)%bind_Ok. apply bind_Ok in H as (vb & Hb & H).
    rewrite (IHa _ Ha), (IHb _ Hb). simpl. by apply py_add_primal.
  - intros (va & Ha & H)%bind_Ok. apply bind_Ok in H as (vb & Hb & H).
    rewrite (IHa _ Ha), (IHb _ Hb). simpl. by apply py_mul_primal.
Qed.

Lemma dual_evaluation_carries_the_value_witness :
  let '(x, y, f, σ) := Symbolic.cell48 in
  let σ := Symbolic.set_value y (VDual (new_DualNumber (PFloat 4) (PFloat 0)))
             (Symbolic.set_value x
                (VDual (new_DualNumber (PFloat 3) (PFloat 1))) σ) in
  let v := VDual (new_DualNumber (PFloat 42) (PFloat 24)) in
  Symbolic.evaluate f σ = Ok v ∧
  Symbolic.evaluate (primal_graph f) (primal_store σ) = Ok (primal v).
Proof.
  let t := eval vm_compute in Symbolic.cell48 in
  replace Symbolic.cell48 with t by (vm_compute; reflexivity).
  cbv zeta beta iota.
  match goal with |- ?P ∧ _ => assert (H : P) by (vm_compute; reflexivity) end.
  split; [exact H|].
  exact (dual_evaluation_carries_the_value _ _ _ H).
Defined.

(** ** The symbolic derivatives against the derivatives written by hand *)

(** X9. At every integer point the graph of cell 32 computes the function
    [f] of cell 6, its gradient graphs compute the hand-written [df] of
    cell 8, and their gradient graphs the hand-written Hessian [d2f] of
    cell 13. *)
Theorem symbolic_derivatives_match_hand_written σ x y ox oy (vx vy : Z) :
  x ≠ y → σ !! x = Some ox → σ !! y = Some oy →
  Symbolic.value ox = VNum (PInt vx) → Symbolic.value oy = VNum (PInt vy) →
  let point := [VNum (PInt vx); VNum (PInt vy)] in
  Symbolic.evaluate (Symbolic.f_graph x y) σ = f point ∧
  symbolic_df (Symbolic.f_graph x y) x y σ = df point ∧
  symbolic_d2f (Symbolic.f_graph x y) x y σ = d2f point.
Proof.
  intros Hne Hx Hy Hvx Hvy point.
  unfold symbolic_df, symbolic_d2f, Symbolic.f_graph, point.
  cbn [Symbolic.gradient].
  repeat (case_decide; [try congruence | try congruence]).
  cbn [Symbolic.evaluate]. rewrite ?Hx, ?Hy, ?Hvx, ?Hvy.
  cbn -[Z.mul Z.add].
  split_and!;
    repeat match goal with
           | |- Ok _ = Ok _ => f_equal
           | |- (_, _) = (_, _) => f_equal
           | |- _ :: _ = _ :: _ => f_equal
           | |- VNum _ = VNum _ => f_equal
           | |- PInt _ = PInt _ => f_equal
           end; lia.
Qed.

Lemma symbolic_derivatives_match_hand_written_witness :
  let '(x, y, graph, σ) := Symbolic.cell48 in
  let σ := Symbolic.set_value y (VNum (PInt 4))
             (Symbolic.set_value x (VNum (PInt 3)) σ) in
  let point := [VNum (PInt 3); VNum (PInt 4)] in
  x ≠ y ∧
  (Symbolic.evaluate graph σ = f point ∧
   symbolic_df graph x y σ = df point ∧
   symbolic_d2f graph x y σ = d2f point).
Proof.
  let t := eval vm_compute in Symbolic.cell48 in
  replace Symbolic.cell48 with t by (vm_compute; reflexivity).
  cbv zeta beta iota.
  split; [discriminate|].
  match goal with |- context [Symbolic.evaluate _ ?s] => set (σ := s) end.
  assert (Hx : σ !! 1%positive
               = Some (Symbolic.new_VarObj (VNum (PInt 3)) "x"))
    by (vm_compute; reflexivity).
  assert (Hy : σ !! 2%positive
               = Some (Symbolic.new_VarObj (VNum (PInt 4)) "y"))
    by (vm_compute; reflexivity).
  exact (symbolic_derivatives_match_hand_written σ 1%positive 2%positive _ _
           3 4 ltac:(discriminate) Hx Hy eq_refl eq_refl).
Defined.

(** ** What [backpropagate] writes, and what it needs *)

Lemma Reverse_get_value_state n h : snd (Reverse.get_value n h) = h.
Proof. unfold Reverse.get_value. destruct n; repeat case_match; done. Qed.

Lemma Reverse_add_gradient_frame x g h :
  Reverse.ops (snd (Reverse.add_gradient x g h)) = Reverse.ops h ∧
  store_of (snd (Reverse.add_gradient x g h)) = store_of h.
Proof.
  unfold Reverse.add_gradient.
  destruct (Reverse.vars h !! x) as [o|] eqn:E; [|done].
  destruct (py_add (Reverse.gradient o) g); [|done].
  split; [done|]. unfold store_of. simpl. rewrite fmap_insert. simpl.
  apply insert_id. by rewrite lookup_fmap, E.
Qed.

Lemma Reverse_backpropagate_frame n : ∀ g h,
  Reverse.ops (snd (Reverse.backpropagate n g h)) = Reverse.ops h ∧
  store_of (snd (Reverse.backpropagate n g h)) = store_of h.
Proof.
  induction n as [v|x|x a IHa b IHb|x a IHa b IHb]; intros g h.
  - done.
  - apply Reverse_add_gradient_frame.
  - cbn [Reverse.backpropagate]. cbv beta iota delta [mbind M_bind].
    destruct (IHa g h) as [O1 S1].
    destruct (Reverse.backpropagate a g h) as [[[]|e] h1]; [|done].
    simpl in O1, S1. destruct (IHb g h1) as [O2 S2]. split; congruence.
  - cbn [Reverse.backpropagate]. cbv beta iota delta [mbind M_bind lift].
    pose proof (Reverse_get_value_state b h) as Gb.
    destruct (Reverse.get_value b h) as [[vb|e] h0]; simpl in Gb; subst h0;
      [|done].
    destruct (py_mul g vb) as [ga|e]; [|done].
    destruct (IHa ga h) as [O1 S1].
    destruct (Reverse.backpropagate a ga h) as [[[]|e] h1]; [|done].
    simpl in O1, S1.
    pose proof (Reverse_get_value_state a h1) as Ga.
    destruct (Reverse.get_value a h1) as [[va|e] h0]; simpl in Ga; subst h0;
      [|done].
    destruct (py_mul g va) as [gb|e]; [|done].
    destruct (IHb gb h1) as [O2 S2]. split; congruence.
Qed.

(** X10. [backpropagate] writes nothing but [gradient] attributes: whatever
    the graph, the seed and the state, and whether it returns or raises, the
    [value] attributes of all operator objects and the [value] and [name] of
    all variables are afterwards what they were, and no variable is created
    or removed; [evaluate], for its part, leaves every variable (gradient
    included) as it was. *)
Theorem backpropagate_writes_only_gradients n g h :
  Reverse.ops (snd (Reverse.backpropagate n g h)) = Reverse.ops h ∧
  store_of (snd (Reverse.backpropagate n g h)) = store_of h ∧
  dom (Reverse.vars (snd (Reverse.backpropagate n g h))) = dom (Reverse.vars h) ∧
  Reverse.vars (snd (Reverse.evaluate n h)) = Reverse.vars h.
Proof.
  destruct (Reverse_backpropagate_frame n g h) as [Ho Hs].
  split_and!; [done|done| |apply Reverse_evaluate_vars].
  apply (f_equal dom) in Hs. unfold store_of in Hs.
  by rewrite !dom_fmap_L in Hs.
Qed.

(** X11. [Mul.backpropagate] reads [self.b.value] first: on a product
    whose right operand is an operator node that [evaluate] has not visited
    yet, it raises [AttributeError] and changes nothing. *)
Theorem backpropagate_before_evaluate x a b i g h :
  op_ref b = Some i → Reverse.ops h !! i = Some None →
  Reverse.backpropagate (Reverse.Mul x a b) g h = (Raise AttributeError, h).
Proof.
  intros Hb Hi. cbn [Reverse.backpropagate].
  cbv beta iota delta [mbind M_bind].
  destruct b as [v|y|y b1 b2|y b1 b2]; try discriminate;
    injection Hb as ->; simpl; by rewrite Hi.
Qed.

Lemma backpropagate_before_evaluate_witness :
  Reverse.backpropagate (fst unevaluated_product) (VNum (PFloat 1))
    (snd unevaluated_product)
  = (Raise AttributeError, snd unevaluated_product).
Proof.
  let t := eval vm_compute in unevaluated_product in
  replace unevaluated_product with t by (vm_compute; reflexivity).
  cbn [fst snd].
  apply (backpropagate_before_evaluate _ _ _ 1%positive);
    [reflexivity | vm_compute; reflexivity].
Defined.

(** ** [evaluate] with and without the cache *)

(** X2. The caching [evaluate] of the reverse-mode classes returns exactly
    what the [evaluate] of the first classes returns on the same graph and
    variable values: the same value or the same exception, for every graph
    and every state of the objects. *)
Theorem caching_evaluate_returns_the_same n h :
  fst (Reverse.evaluate n h) = Symbolic.evaluate (erase n) (store_of h).
Proof. apply Reverse_evaluate_erase. Qed.

(** ** [gradients]: the exceptions of [func], a zero [eps] *)

Lemma run_calls_length {St} (func : list pyvalue → M St pyvalue) argss :
  ∀ s, length (fst (run_calls func argss s)) = length argss.
Proof.
  induction argss as [|a argss IH]; intros s; simpl; [done|].
  destruct (func a s) as [r s1]. specialize (IH s1).
  destruct (run_calls func argss s1) as [rs s2]. simpl in *. by rewrite IH.
Qed.

Lemma stops_no_call {St A} (r : result A)
    (w : world (St * list (result pyvalue))) :
  stops_at_first_exception (snd (user w)) (r, w).
Proof. exists []. split; [by rewrite app_nil_r|]. intros i e [=]. Qed.

Lemma stops_after_call {St A} log (t : pyvalue)
    (out : result A * world (St * list (result pyvalue))) :
  stops_at_first_exception (log ++ [Ok t]) out →
  stops_at_first_exception log out.
Proof.
  intros (rs & Hlog & Hrs). exists (Ok t :: rs). split.
  - by rewrite Hlog, <- app_assoc.
  - intros [|i] e; [intros [=]|]. simpl. intros H.
    destruct (Hrs i e H) as [-> <-]. done.
Qed.

Lemma stops_raising_call {St A} (e : exn) lists
    (s : St) (log : list (result pyvalue)) :
  stops_at_first_exception (A := A) log
    (Raise e, new_world lists (s, log ++ [Raise e])).
Proof.
  exists [Raise e]. split; [done|].
  intros [|i] e'; [|intros [=]]. by intros [= <-].
Qed.

Lemma for_idx_stops {St} (func : list pyvalue → M St pyvalue) l ε base range :
  ∀ acc w,
    stops_at_first_exception (snd (user w))
      (for_idx (logged func) l ε base range acc w).
Proof.
  induction range as [|idx range IH]; intros acc w; [apply stops_no_call|].
  cbn [for_idx]. run_M.
  destruct (lists w !! l) as [ys|]; cbn [lists user]; [|apply stops_no_call].
  rewrite lookup_insert_eq.
  destruct (ys !! idx) as [y|]; run_M; cbn [lists user];
    [|apply (stops_no_call _ (new_world _ (user w)))].
  destruct (py_add y ε) as [y'|]; cbn [lists user];
    [|apply (stops_no_call _ (new_world _ (user w)))].
  rewrite lookup_insert_eq. cbn [lists user]. rewrite insert_insert_eq.
  destruct (user w) as [s log]. cbn [logged snd].
  destruct (func (<[idx:=y']> ys) s) as [[t|e] s1];
    [|apply stops_raising_call].
  apply (stops_after_call _ t).
  destruct (py_sub t base) as [diff|];
    [|apply (stops_no_call _ (new_world _ (s1, log ++ [Ok t])))].
  destruct (py_truediv diff ε) as [d|];
    [|apply (stops_no_call _ (new_world _ (s1, log ++ [Ok t])))].
  apply (IH _ (new_world _ (s1, log ++ [Ok t]))).
Qed.

(** X12. [gradients] has no exception handling of its own: on every path,
    a call of [func] that raises is the last call that [gradients] makes,
    and [gradients] raises that same exception; every call before it
    returned. [func] is any function with a state of its own; the log records
    how each of its calls ended. *)
Theorem gradients_stops_at_first_exception {St}
    (func : list pyvalue → M St pyvalue) l eps
    (w : world (St * list (result pyvalue))) :
  ∃ rs,
    snd (user (snd (gradients (logged func) l eps w))) = snd (user w) ++ rs ∧
    ∀ i e, rs !! i = Some (Raise e) →
      fst (gradients (logged func) l eps w) = Raise e ∧ S i = length rs.
Proof.
  change (stops_at_first_exception (snd (user w))
            (gradients (logged func) l eps w)).
  unfold gradients. run_M.
  destruct (lists w !! l) as [point|] eqn:Hl; [|apply stops_no_call].
  destruct (user w) as [s log] eqn:Hu. cbn [logged snd].
  destruct (func point s) as [[b|e] s1]; [|apply stops_raising_call].
  apply (stops_after_call _ b). cbn [lists user]. rewrite Hl.
  apply (for_idx_stops func l _ b _ [] (new_world _ (s1, log ++ [Ok b]))).
Qed.

Lemma num_truediv_zero d e :
  num_is_zero e = true → ∀ q, num_truediv d e ≠ Ok q.
Proof.
  intros He q. destruct d as [x|x], e as [y|y]; simpl in *.
  - by rewrite He.
  - destruct (int_to_float x); simpl; [|done]. by rewrite He.
  - apply Z.eqb_eq in He as ->. rewrite int_to_float_0. simpl.
    by change (PrimFloat.eqb PrimFloat.zero PrimFloat.zero) with true.
  - by rewrite He.
Qed.

Lemma py_truediv_zero d e :
  value_is_zero e = true → ∀ q, py_truediv d e ≠ Ok q.
Proof.
  intros He q. destruct d as [x|], e as [y|]; simpl; try done.
  destruct (num_truediv x y) eqn:E; simpl; [|done].
  by apply num_truediv_zero in E.
Qed.

(** X13. With an [eps] that is zero (the int 0, a float zero) and a point
    of at least one dimension, [gradients] never returns a result: the
    division by [eps] raises. *)
Theorem gradients_zero_eps_never_returns {St}
    (func : list pyvalue → M St pyvalue) l eps (w : world St) point :
  lists w !! l = Some point → point ≠ [] → value_is_zero eps = true →
  ∀ res w', gradients func l (Some eps) w ≠ (Ok res, w').
Proof.
  intros Hl Hne He res w' H.
  apply (gradients_Ok _ _ _ _ point) in H as (base & perturbed & ts & Hp & Hrun & Hq);
    [|exact Hl].
  apply (f_equal (λ p, length (fst p))) in Hrun.
  rewrite run_calls_length in Hrun. simpl in Hrun.
  unfold perturbed_points in Hrun.
  rewrite length_imap, length_fmap, <- (Forall2_length _ _ _ Hp) in Hrun.
  destruct point as [|x point]; [done|]. destruct ts as [|t ts]; [done|].
  inversion Hq as [|? d ? ? (diff & _ & Hdiv)]; subst.
  simpl in Hdiv. by apply py_truediv_zero in Hdiv.
Qed.

Lemma gradients_zero_eps_never_returns_witness :
  lists cell20_world !! 1%positive = Some [VNum (PInt 3); VNum (PInt 4)] ∧
  ∀ res w',
    gradients (pure_func f) 1%positive (Some (VNum (PInt 0))) cell20_world
    ≠ (Ok res, w').
Proof.
  assert (Hl : lists cell20_world !! 1%positive
               = Some [VNum (PInt 3); VNum (PInt 4)])
    by (vm_compute; reflexivity).
  split; [exact Hl|].
  exact (gradients_zero_eps_never_returns (pure_func f) 1%positive
           (VNum (PInt 0)) cell20_world [VNum (PInt 3); VNum (PInt 4)]
           Hl ltac:(discriminate) eq_refl).
Defined.

(** ** What the gradient graph computes, over ints *)

Lemma ints_only_set_value e σ x (z : Z) :
  ints_only e σ → ints_only e (Symbolic.set_value x (VNum (PInt z)) σ).
Proof.
  induction e as [v|y|a IHa b IHb|a IHa b IHb]; simpl; try tauto.
  intros (o & k & Hy & Hk). unfold Symbolic.set_value.
  destruct (decide (x = y)) as [->|Hne].
  - eexists _, z. rewrite lookup_alter_eq, Hy. done.
  - exists o, k. by rewrite lookup_alter_ne.
Qed.

Lemma int_value_taylor e σ x ox (vx h : Z) :
  σ !! x = Some ox → Symbolic.value ox = VNum (PInt vx) →
  ∃ q, int_value e (Symbolic.set_value x (VNum (PInt (vx + h))) σ)
       = (int_value e σ + h * int_partial e σ x + h * h * q)%Z.
Proof.
  intros Hx Hvx.
  induction e as [v|y|a [qa IHa] b [qb IHb]|a [qa IHa] b [qb IHb]]; simpl.
  - exists 0%Z. lia.
  - unfold Symbolic.set_value. case_decide as Hy.
    + subst y. rewrite lookup_alter_eq, Hx. simpl. rewrite Hvx.
      exists 0%Z. lia.
    + rewrite lookup_alter_ne by done. exists 0%Z. lia.
  - exists (qa + qb)%Z. rewrite IHa, IHb. lia.
  - exists (int_value a σ * qb + qa * int_value b σ
            + int_partial a σ x * int_partial b σ x
            + h * (int_partial a σ x * qb + qa * int_partial b σ x)
            + h * h * qa * qb)%Z.
    rewrite IHa, IHb. ring.
Qed.

(** X14. The gradient graph computes the first-order coefficient of the
    graph: for a graph over ints, moving the variable [x] from its value by
    any integer [h] changes what [evaluate] returns by [h] times what the
    gradient graph for [x] evaluates to, up to a multiple of [h * h]. *)
Theorem gradient_is_first_order_coefficient e σ x ox (vx h : Z) :
  ints_only e σ → σ !! x = Some ox → Symbolic.value ox = VNum (PInt vx) →
  ∃ v d q : Z,
    Symbolic.evaluate e σ = Ok (VNum (PInt v)) ∧
    Symbolic.evaluate (Symbolic.gradient e x) σ = Ok (VNum (PInt d)) ∧
    Symbolic.evaluate e (Symbolic.set_value x (VNum (PInt (vx + h))) σ)
      = Ok (VNum (PInt (v + h * d + h * h * q))).
Proof.
  intros Hint Hx Hvx.
  destruct (int_value_taylor e σ x ox vx h Hx Hvx) as [q Hq].
  exists (int_value e σ), (int_partial e σ x), q. split_and!.
  - by apply ints_only_evaluate.
  - by apply ints_only_gradient.
  - rewrite <- Hq. by apply ints_only_evaluate, ints_only_set_value.
Qed.

Lemma gradient_is_first_order_coefficient_witness :
  let '(f, σ) := Symbolic.cell34 in
  ∃ v d q : Z,
    Symbolic.evaluate f σ = Ok (VNum (PInt v)) ∧
    Symbolic.evaluate (Symbolic.gradient f 1%positive) σ = Ok (VNum (PInt d)) ∧
    Symbolic.evaluate f
      (Symbolic.set_value 1%positive (VNum (PInt (3 + 10))) σ)
      = Ok (VNum (PInt (v + 10 * d + 10 * 10 * q))).
Proof.
  let t := eval vm_compute in Symbolic.cell34 in
  replace Symbolic.cell34 with t by (vm_compute; reflexivity).
  cbv beta iota.
  eapply (gradient_is_first_order_coefficient _ _ 1%positive
            (Symbolic.new_VarObj (VNum (PInt 3)) "x") 3 10).
  - cbn [ints_only]. split_and!;
      try (eexists _, _; split; [vm_compute; reflexivity | reflexivity]).
    by eexists.
  - vm_compute. reflexivity.
  - reflexivity.
Defined.

Lemma ints_only_gradient_graph e σ x :
  ints_only e σ → ints_only (Symbolic.gradient e x) σ.
Proof.
  induction e as [v|y|a IHa b IHb|a IHa b IHb]; simpl.
  - by eexists.
  - intros _. case_decide; by eexists.
  - tauto.
  - tauto.
Qed.

Lemma int_value_gradient e σ x :
  int_value (Symbolic.gradient e x) σ = int_partial e σ x.
Proof.
  induction e as [v|y|a IHa b IHb|a IHa b IHb]; simpl.
  - reflexivity.
  - by case_decide.
  - by rewrite IHa, IHb.
  - by rewrite IHa, IHb.
Qed.

Lemma int_partial_gradient_sym e σ x y :
  int_partial (Symbolic.gradient e x) σ y
  = int_partial (Symbolic.gradient e y) σ x.
Proof.
  induction e as [v|z|a IHa b IHb|a IHa b IHb]; simpl.
  - reflexivity.
  - by repeat case_decide.
  - by rewrite IHa, IHb.
  - rewrite !int_value_gradient, IHa, IHb. ring.
Qed.

(** X15. Second-order gradient graphs are symmetric over ints: for every
    graph over ints and all variables [x] and [y], the graph obtained by
    differentiating for [x] and then for [y] evaluates to the same integer
    as the one obtained by differentiating for [y] and then for [x]. *)
Theorem mixed_second_gradients_agree e σ x y :
  ints_only e σ →
  ∃ d : Z,
    Symbolic.evaluate (Symbolic.gradient (Symbolic.gradient e x) y) σ
      = Ok (VNum (PInt d)) ∧
    Symbolic.evaluate (Symbolic.gradient (Symbolic.gradient e y) x) σ
      = Ok (VNum (PInt d)).
Proof.
  intros Hint. exists (int_partial (Symbolic.gradient e x) σ y). split.
  - by apply ints_only_gradient, ints_only_gradient_graph.
  - rewrite int_partial_gradient_sym.
    by apply ints_only_gradient, ints_only_gradient_graph.
Qed.

Lemma mixed_second_gradients_agree_witness :
  let '(f, σ) := Symbolic.cell34 in
  ∃ d : Z,
    Symbolic.evaluate
      (Symbolic.gradient (Symbolic.gradient f 1%positive) 2%positive) σ
      = Ok (VNum (PInt d)) ∧
    Symbolic.evaluate
      (Symbolic.gradient (Symbolic.gradient f 2%positive) 1%positive) σ
      = Ok (VNum (PInt d)).
Proof.
  let t := eval vm_compute in Symbolic.cell34 in
  replace Symbolic.cell34 with t by (vm_compute; reflexivity).
  cbv beta iota.
  apply mixed_second_gradients_agree.
  cbn [ints_only]. split_and!;
    try (eexists _, _; split; [vm_compute; reflexivity | reflexivity]).
  by eexists.
Defined.

(** ** The cost of second derivatives by finite differences *)

Lemma run_calls_cost {St} (F : list pyvalue → M St pyvalue) (c : St → nat)
    (cost : nat) :
  (∀ args s v s', F args s = (Ok v, s') → c s' = c s + cost) →
  ∀ argss s vs s',
    run_calls F argss s = (Ok <$> vs, s') →
    c s' = c s + cost * length argss.
Proof.
  intros HF. induction argss as [|a argss IH]; intros s vs s'; simpl.
  - intros [= _ <-]. lia.
  - destruct (F a s) as [r s1] eqn:Ha.
    destruct (run_calls F argss s1) as [rs s2] eqn:Hr.
    destruct vs as [|v vs]; [discriminate|]. simpl.
    intros [= -> -> <-].
    rewrite (IH _ _ _ Hr), (HF _ _ _ _ Ha). lia.
Qed.

Lemma run_calls_result_length {St} (F : list pyvalue → M St pyvalue) argss
    s rs s' :
  run_calls F argss s = (rs, s') → length rs = length argss.
Proof.
  intros H. by rewrite <- (run_calls_length F argss s), H.
Qed.

Lemma df_numeric_cost {St} (func : list pyvalue → M St pyvalue) args
    (w w' : world (St * nat)) r :
  df_numeric (counted func) args w = (Ok r, w') →
  snd (user w') = snd (user w) + 3 ∧ length r = 2.
Proof.
  unfold df_numeric.
  destruct args as [|x [|y [|? ?]]]; try discriminate.
  intros (l & w1 & Hnew & H)%M_bind_Ok.
  injection Hnew as <- <-.
  pose proof H as H'.
  apply (gradients_call_count _ _ _ _ _ [x; y]) in H;
    [|simpl; apply lookup_insert_eq].
  split; [exact H|].
  apply (gradients_Ok _ _ _ _ [x; y]) in H'
    as (base & perturbed & ts & Hp & Hrun & Hq);
    [|simpl; apply lookup_insert_eq].
  rewrite <- (Forall2_length _ _ _ Hq).
  pose proof (run_calls_result_length _ _ _ _ _ Hrun) as Hn.
  simpl in Hn. unfold perturbed_points in Hn.
  rewrite length_imap, length_fmap, <- (Forall2_length _ _ _ Hp) in Hn.
  simpl in Hn. lia.
Qed.

Lemma partial_cost {St} (func : list pyvalue → M St pyvalue) k args
    (w w' : world (St * nat)) v :
  (r ← df_numeric (counted func) args; lift (item k r)) w = (Ok v, w') →
  snd (user w') = snd (user w) + 3.
Proof.
  intros (r & w1 & Hdf & H)%M_bind_Ok.
  unfold lift in H. injection H as _ <-.
  by apply df_numeric_cost in Hdf as [-> _].
Qed.

Lemma gradients_of_partial_cost {St} (func : list pyvalue → M St pyvalue) k
    l (W W' : world (world (St * nat))) x y res :
  lists W !! l = Some [x; y] →
  gradients (λ args, r ← df_numeric (counted func) args; lift (item k r))
    l None W = (Ok res, W') →
  snd (user (user W')) = snd (user (user W)) + 9 ∧ length res = 2.
Proof.
  intros Hl H.
  apply (gradients_Ok _ _ _ _ [x; y]) in H
    as (base & perturbed & ts & Hp & Hrun & Hq); [|exact Hl].
  pose proof (Forall2_length _ _ _ Hp) as Hlen.
  pose proof (Forall2_length _ _ _ Hq) as Hlen'.
  pose proof (run_calls_result_length _ _ _ _ _ Hrun) as Hn.
  simpl in Hn. unfold perturbed_points in Hn.
  rewrite length_imap, length_fmap in Hn.
  change (Ok base :: (Ok <$> ts)) with (Ok <$> (base :: ts)) in Hrun.
  apply (run_calls_cost _ (λ w, snd (user w)) 3) in Hrun.
  - simpl in Hrun, Hlen. unfold perturbed_points in Hrun.
    rewrite length_imap in Hrun. split; lia.
  - intros args s v s'. apply partial_cost.
Qed.

(** X16. Second derivatives by nested finite differences, [d2f(x, y)]:
    whenever it returns, it returns two rows of two entries and has called
    [f] exactly 18 times, 9 for each row: 3 calls of [dfdx] (or [dfdy]),
    each costing the 3 calls of [f] of one [gradients(f, [x, y])]. *)
Theorem d2f_numeric_cost {St} (func : list pyvalue → M St pyvalue) args
    (W W' : world (world (St * nat))) res :
  d2f_numeric (counted func) args W = (Ok res, W') →
  snd (user (user W')) = snd (user (user W)) + 18 ∧
  ∃ r1 r2, res = [r1; r2] ∧ length r1 = 2 ∧ length r2 = 2.
Proof.
  unfold d2f_numeric.
  destruct args as [|x [|y [|? ?]]]; try discriminate.
  intros (l1 & W1 & Hn1 & H)%M_bind_Ok. injection Hn1 as <- <-.
  apply M_bind_Ok in H as (r1 & W2 & H1 & H).
  apply M_bind_Ok in H as (l2 & W3 & Hn2 & H). injection Hn2 as <- <-.
  apply M_bind_Ok in H as (r2 & W4 & H2 & H). injection H as <- <-.
  apply (gradients_of_partial_cost func 0 _ _ _ x y) in H1 as [C1 L1];
    [|simpl; apply lookup_insert_eq].
  apply (gradients_of_partial_cost func 1 _ _ _ x y) in H2 as [C2 L2];
    [|simpl; apply lookup_insert_eq].
  simpl in C1, C2. split; [lia|]. by exists r1, r2.
Qed.

Lemma d2f_numeric_cost_witness :
  fst cell26 =
    Ok [[VNum (PFloat 0x1ffffffcbcb800p-50); VNum (PFloat 0x18001a055a2800p-50)];
        [VNum (PFloat 0x18001a055a2800p-50);
         VNum (PFloat (-0x17d78400000000p-72))]] ∧
  snd (user (user (snd cell26))) = 0 + 18 ∧
  ∃ r1 r2,
    [[VNum (PFloat 0x1ffffffcbcb800p-50); VNum (PFloat 0x18001a055a2800p-50)];
     [VNum (PFloat 0x18001a055a2800p-50);
      VNum (PFloat (-0x17d78400000000p-72))]] = [r1; r2] ∧
    length r1 = 2 ∧ length r2 = 2.
Proof.
  assert (H : fst cell26 =
    Ok [[VNum (PFloat 0x1ffffffcbcb800p-50); VNum (PFloat 0x18001a055a2800p-50)];
        [VNum (PFloat 0x18001a055a2800p-50);
         VNum (PFloat (-0x17d78400000000p-72))]])
    by (vm_compute; reflexivity).
  split; [exact H|].
  apply (d2f_numeric_cost (pure_func f) [VNum (PInt 3); VNum (PInt 4)]
           (empty_world (empty_world (tt, 0))) (snd cell26)).
  rewrite <- H. unfold cell26. by destruct (d2f_numeric _ _ _).
Defined.

